(** * Block storage of go-store (vendor/codeberg.org/gruf/go-store/storage/block.go)

    A shallow embedding of [BlockStorage]: values are cut into chunks, every
    chunk is kept in a block file named after the encoded hash computed for it,
    and a node file per key lists those names, one per line.

    Conventions of the embedding.
    - Go [string] is [string]; [[]byte] is [list byte]; [string(b)] and
      [[]byte(s)] are [string_of_list_byte] and [list_byte_of_string].
    - The two directories owned by the store are finite maps from a file name
      to the bytes of that file; only regular files live there.  A third
      component records which names exist in the working directory of the
      process, because [WriteStream] hands the bare key to [stat].
    - Operations thread a [World] (directories, lock flag, buffer pool,
      trace of file-system calls) and return a [result].
    - Goroutines started by [WriteStream] run to completion where they are
      started; the wait group is then trivially drained. *)

From Stdlib Require Import ZArith Lia.
From Stdlib Require Import Strings.String Strings.Ascii Strings.Byte.
From stdpp Require Import base option list gmap fin_maps strings.

Open Scope string_scope.
Open Scope list_scope.
Open Scope nat_scope.

(** ** Errors *)

Inductive errno := ENOENT | EEXIST.

Inductive error :=
| ErrClosed
| ErrInvalidKey
| ErrAlreadyExists
| ErrNotFound
| errNoHashesWritten
| errInvalidNode
| errCorruptNode
| ErrCorruptedNodes (nodeKeys : list string)
    (* fmt.Errorf("store/storage: corrupted nodes: %v", nodeKeys) *)
| io_EOF
| io_ErrUnexpectedEOF
| Errno (e : errno)
| ErrCodec                       (* an error of the configured Compressor *)
| wrap (outer inner : error)
| OutOfFuel                      (* the model gave up on a loop; never a Go value *)
| Panicked.                      (* a run-time panic; never a Go value *)

Inductive result (A : Type) :=
| Ok (a : A)
| Err (e : error).
Arguments Ok {A} a.
Arguments Err {A} e.

(** Modelled from the spec: errors.go of the package is not under src/; the
    three swap helpers replace the errno named in their identifier by the
    matching storage error and pass everything else through. *)
Definition errSwapNoop (err : error) : error := err.

Definition errSwapNotFound (err : error) : error :=
  match err with
  | Errno ENOENT => ErrNotFound
  | _ => err
  end.

Definition errSwapExist (err : error) : error :=
  match err with
  | Errno EEXIST => ErrAlreadyExists
  | _ => err
  end.

(** ** Bytes and strings *)

#[global] Instance byte_eq_dec : EqDecision byte := Byte.byte_eq_dec.

(* const hashSeparator = byte('\n') *)
Definition hashSeparator : byte := x0a.

(** [bytes.IndexByte]: position of the first [c] in [b], or -1. *)
Fixpoint bytes_IndexByte (b : list byte) (c : byte) : Z :=
  match b with
  | [] => -1
  | x :: b' =>
      if decide (x = c) then 0
      else let i := bytes_IndexByte b' c in
           if (i =? -1)%Z then (-1)%Z else (i + 1)%Z
  end.

Definition has_prefix (s p : string) : bool :=
  bool_decide (p = String.substring 0 (String.length p) s).

(** [strings.Contains]. *)
Fixpoint strings_Contains (s substr : string) : bool :=
  has_prefix s substr ||
  match s with
  | EmptyString => false
  | String _ s' => strings_Contains s' substr
  end.

(** ** The hash encoder

    [hashEncoder.EncodeSum] delegates to go-hashenc over crypto/sha256 and a
    base64 alphabet, none of which is part of the repository.  The encoder is
    therefore an interface: an encoded length and a function from bytes to a
    name of exactly that length that never contains the separator. *)
Class HashEncoder := {
  encodedHashLen : nat;
  EncodeSum : list byte → string;
  EncodeSum_length : ∀ src, String.length (EncodeSum src) = encodedHashLen;
  EncodeSum_printable : ∀ src, hashSeparator ∉ list_byte_of_string (EncodeSum src)
}.

(** ** Nodes *)

(* type node struct { hashes []string } *)
Record node := Node { hashes : list string }.

#[global] Instance node_eq_dec : EqDecision node.
Proof. solve_decision. Defined.

(** [node.removeHash]: the index loop, with [fuel] bounding its iterations
    (every iteration either shortens the slice or advances [i]). *)
Fixpoint removeHash_loop (fuel : nat) (hs : list string) (i : nat)
    (hash : string) (haveDropped : bool) : list string * bool :=
  match fuel with
  | O => (hs, haveDropped)
  | S fuel =>
      match hs !! i with
      | None => (hs, haveDropped)
      | Some h =>
          if decide (h = hash)
          then removeHash_loop fuel (take i hs ++ drop (S i) hs) i hash true
          else removeHash_loop fuel hs (S i) hash haveDropped
      end
  end.

Definition removeHash (n : node) (hash : string) : node * bool :=
  let '(hs, haveDropped) :=
    removeHash_loop (length (hashes n)) (hashes n) 0 hash false in
  (Node hs, haveDropped).

(** ** nodeReader: the node as a byte stream *)

Module nodeReader.

Record t := mk { node_ : node; idx : nat; last : Z }.

(** A fresh [&nodeReader{node: &node}]. *)
Definition new (n : node) : t := mk n 0 0.

(** The [for r.idx < len(r.node.hashes)] loop.  [rest] is the slice
    [r.node.hashes[r.idx:]], [b] the bytes written into the caller's buffer
    so far (so [n] is [length b]) and [lenb] the length of that buffer. *)
Fixpoint loop (rest : list string) (lenb : nat) (b : list byte)
    (idx : nat) (last : Z) : list byte * option error * (nat * Z) :=
  match rest with
  | [] => (b, Some io_EOF, (idx, last))
  | hash :: rest' =>
      let src := drop (Z.to_nat last) (list_byte_of_string hash) in
      let m := Nat.min (lenb - length b) (length src) in
      let b := b ++ take m src in
      if (Z.of_nat m <? Z.of_nat (String.length hash) - last)%Z
      then (b, None, (idx, Z.of_nat m))
      else if decide (length b = lenb)
      then (b, None, (idx, (-1)%Z))
      else loop rest' lenb (b ++ [hashSeparator]) (S idx) 0%Z
  end.

(** [Read(b)] for a buffer of [lenb] bytes: the bytes placed in [b[:n]], the
    error and the reader afterwards.  [None] is the index-out-of-range panic
    of [b[n] = hashSeparator] on an empty buffer. *)
Definition Read (r : t) (lenb : nat) : option (list byte * option error * t) :=
  let hs := hashes (node_ r) in
  if decide (last r = (-1)%Z) then
    match lenb with
    | O => None
    | S _ =>
        let '(b, err, (i, l)) := loop (drop (idx r) hs) lenb [hashSeparator] (idx r) 0%Z in
        Some (b, err, mk (node_ r) i l)
    end
  else
    let '(b, err, (i, l)) := loop (drop (idx r) hs) lenb [] (idx r) (last r) in
    Some (b, err, mk (node_ r) i l).

(** Successive [Read] calls with buffers of the given sizes: the bytes handed
    out, and the error that ended the stream if one did. *)
Fixpoint pull (r : t) (sizes : list nat) : option (list byte * option error) :=
  match sizes with
  | [] => Some ([], None)
  | lenb :: sizes' =>
      match Read r lenb with
      | None => None
      | Some (b, Some e, _) => Some (b, Some e)
      | Some (b, None, r') =>
          match pull r' sizes' with
          | None => None
          | Some (rest, e) => Some (b ++ rest, e)
          end
      end
  end.

End nodeReader.

(** ** nodeWriter: a byte stream parsed into a node *)

Module nodeWriter.

Record t := mk { node_ : node; buf : list byte }.

(** A fresh [&nodeWriter{node: &node, buf: hbuf}] over an empty buffer.
    The buffer is a go-byteutil one: [Len], [Write] and [Reset] are length,
    append and emptying, and [w.buf.String()] is taken to be the bytes held
    at that moment, as a string of its own. *)
Definition new : t := mk (Node []) [].

(** The [for { ... }] loop of [Write]; every iteration that does not return
    consumes a separator, so [S (length b)] iterations are enough. *)
Fixpoint loop `{HashEncoder} (fuel : nat) (w : t) (b : list byte) (n : nat)
    : (nat * option error) * t :=
  match fuel with
  | O => ((n, Some OutOfFuel), w)
  | S fuel =>
      let idx := bytes_IndexByte (drop n b) hashSeparator in
      if (idx =? -1)%Z then
        if decide (encodedHashLen < length (buf w))
        then ((n, Some errInvalidNode), w)
        else ((length b, None), mk (node_ w) (buf w ++ drop n b))
      else
        let buf' := buf w ++ take (Z.to_nat idx) (drop n b) in
        let n := n + Z.to_nat idx + 1 in
        if decide (length buf' ≠ encodedHashLen)
        then ((n, Some errInvalidNode), mk (node_ w) buf')
        else loop fuel
               (mk (Node (hashes (node_ w) ++ [string_of_list_byte buf'])) [])
               b n
  end.

Definition Write `{HashEncoder} (w : t) (b : list byte) : (nat * option error) * t :=
  loop (S (length b)) w b 0.

End nodeWriter.

(** ** Configuration *)

(** Modelled from the spec: compressor.go of the package is not under src/; a
    compressor wraps a file for reading and for writing and may fail to do
    so, and the default one leaves the bytes as they are. *)
Record Compressor := {
  Reader : list byte → result (list byte);   (* bytes of a file, decoded *)
  Writer : list byte → result (list byte)    (* bytes to store for a value *)
}.

Definition NoCompression : Compressor :=
  {| Reader := λ file, Ok file; Writer := λ value, Ok value |}.

Record BlockConfig := {
  BlockSize : Z;
  ReadBufSize : Z;
  WriteBufSize : Z;
  Overwrite : bool;
  Compression : option Compressor     (* None is the nil interface *)
}.

Definition DefaultBlockConfig : BlockConfig :=
  {| BlockSize := 1024 * 16;
     ReadBufSize := 0;
     WriteBufSize := 4096;
     Overwrite := false;
     Compression := Some NoCompression |}.

(** Modelled from the spec: [DefaultDiskConfig] lives in disk.go, which is not
    under src/; the spec gives 4096 as the default write buffer size. *)
Definition DefaultDiskConfig_WriteBufSize : Z := 4096.

(** [getBlockConfig]; the copy it returns leaves [ReadBufSize] at zero. *)
Definition getBlockConfig (cfg : option BlockConfig) : BlockConfig :=
  let cfg := default DefaultBlockConfig cfg in
  let compression := default NoCompression (Compression cfg) in
  let blockSize :=
    if (BlockSize cfg <? 1)%Z then BlockSize DefaultBlockConfig else BlockSize cfg in
  let writeBufSize :=
    if (WriteBufSize cfg <? 1)%Z then DefaultDiskConfig_WriteBufSize
    else WriteBufSize cfg in
  {| BlockSize := blockSize;
     ReadBufSize := 0;
     WriteBufSize := writeBufSize;
     Overwrite := Overwrite cfg;
     Compression := Some compression |}.

Record BlockStorage := { config : BlockConfig }.

(** [OpenBlock], as far as the operations below depend on it: the store keeps
    the checked configuration.  Creating the root directory and taking the
    lock file happen outside the two directories modelled here. *)
Definition OpenBlock (cfg : option BlockConfig) : BlockStorage :=
  {| config := getBlockConfig cfg |}.

Definition compression (st : BlockStorage) : Compressor :=
  default NoCompression (Compression (config st)).

(** ** The world: file system, lock, buffer pool *)

Inductive path :=
| NodeDir                      (* st.nodePath *)
| BlockDir                     (* st.blockPath *)
| NodePath (key : string)      (* pb.Join(st.nodePath, key) *)
| BlockPath (hash : string)    (* pb.Join(st.blockPath, hash) *)
| RelPath (name : string).     (* a bare name, resolved in the working directory *)

Record oflags := { O_RDWR : bool; O_CREAT : bool; O_TRUNC : bool; O_EXCL : bool }.

Inductive syscall :=
| SysStat (p : path)
| SysOpen (p : path) (flags : oflags)
| SysUnlink (p : path)
| SysMkdirAll (p : path)
| SysReadDir (p : path).

Record World := mkWorld {
  nodeDir : gmap string (list byte);
  blockDir : gmap string (list byte);
  cwd : gset string;
  lockClosed : bool;
  bufpool : list (list byte);
  trace : list syscall
}.

Definition M (A : Type) : Type := World → result A * World.

Definition ret {A} (a : A) : M A := λ w, (Ok a, w).
Definition fail {A} (e : error) : M A := λ w, (Err e, w).
Definition bind {A B} (m : M A) (k : A → M B) : M B :=
  λ w, match m w with
       | (Ok a, w') => k a w'
       | (Err e, w') => (Err e, w')
       end.

Notation "'let*' x ':=' m 'in' k" := (bind m (λ x, k))
  (at level 10, x pattern, m at level 100, k at level 200).

Definition sys (c : syscall) (w : World) : World :=
  mkWorld (nodeDir w) (blockDir w) (cwd w) (lockClosed w) (bufpool w) (trace w ++ [c]).

Definition file_at (p : path) (w : World) : option (list byte) :=
  match p with
  | NodePath key => nodeDir w !! key
  | BlockPath hash => blockDir w !! hash
  | _ => None
  end.

Definition exists_at (p : path) (w : World) : bool :=
  match p with
  | NodeDir | BlockDir => true
  | NodePath key => bool_decide (is_Some (nodeDir w !! key))
  | BlockPath hash => bool_decide (is_Some (blockDir w !! hash))
  | RelPath name => bool_decide (name ∈ cwd w)
  end.

Definition put_file (p : path) (data : list byte) (w : World) : World :=
  match p with
  | NodePath key =>
      mkWorld (<[key := data]> (nodeDir w)) (blockDir w) (cwd w) (lockClosed w)
              (bufpool w) (trace w)
  | BlockPath hash =>
      mkWorld (nodeDir w) (<[hash := data]> (blockDir w)) (cwd w) (lockClosed w)
              (bufpool w) (trace w)
  | _ => w
  end.

Definition drop_file (p : path) (w : World) : World :=
  match p with
  | NodePath key =>
      mkWorld (delete key (nodeDir w)) (blockDir w) (cwd w) (lockClosed w)
              (bufpool w) (trace w)
  | BlockPath hash =>
      mkWorld (nodeDir w) (delete hash (blockDir w)) (cwd w) (lockClosed w)
              (bufpool w) (trace w)
  | RelPath name =>
      mkWorld (nodeDir w) (blockDir w) (cwd w ∖ {[name]}) (lockClosed w)
              (bufpool w) (trace w)
  | _ => w
  end.

(** Modelled from the spec: fs.go of the package (the helpers [stat], [open]
    and [unlink] and the default flag sets) is not under src/.  [stat]
    answers whether the path exists and treats a missing file as [false]
    without an error, which is what [WriteStream] relies on to create a block
    that is not there yet; [open] and [unlink] give ENOENT on a missing file
    and [open] gives EEXIST under O_CREAT|O_EXCL on an existing one; the
    read-write flags create and truncate, as the spec says of the node file. *)
Definition defaultFileROFlags : oflags :=
  {| O_RDWR := false; O_CREAT := false; O_TRUNC := false; O_EXCL := false |}.

Definition defaultFileRWFlags : oflags :=
  {| O_RDWR := true; O_CREAT := true; O_TRUNC := true; O_EXCL := false |}.

Definition with_O_EXCL (flags : oflags) : oflags :=
  {| O_RDWR := O_RDWR flags; O_CREAT := O_CREAT flags;
     O_TRUNC := O_TRUNC flags; O_EXCL := true |}.

Definition stat (p : path) : M bool :=
  λ w, (Ok (exists_at p w), sys (SysStat p) w).

(** [open]: the handle is the path; the file is created or emptied here when
    the flags ask for it. *)
Definition open (p : path) (flags : oflags) : M path :=
  λ w, let w := sys (SysOpen p flags) w in
       match file_at p w with
       | Some old =>
           if O_CREAT flags && O_EXCL flags then (Err (Errno EEXIST), w)
           else if O_TRUNC flags then (Ok p, put_file p [] w)
           else (Ok p, w)
       | None =>
           if O_CREAT flags then (Ok p, put_file p [] w)
           else (Err (Errno ENOENT), w)
       end.

(** Reading an open file to its end. *)
Definition file_contents (file : path) : M (list byte) :=
  λ w, match file_at file w with
       | Some data => (Ok data, w)
       | None => (Err (Errno ENOENT), w)
       end.

(** Writing at the start of a file opened by [open]. *)
Definition file_Write (file : path) (data : list byte) : M unit :=
  λ w, match file_at file w with
       | Some old => (Ok tt, put_file file (data ++ drop (length data) old) w)
       | None => (Err (Errno ENOENT), w)
       end.

Definition unlink (p : path) : M unit :=
  λ w, let w := sys (SysUnlink p) w in
       if exists_at p w then (Ok tt, drop_file p w)
       else (Err (Errno ENOENT), w).

(** [os.Remove] of a regular file. *)
Definition os_Remove (p : path) : M unit := unlink p.

(** [os.MkdirAll]: the two directories are always there in the model. *)
Definition os_MkdirAll (p : path) : M unit :=
  λ w, (Ok tt, sys (SysMkdirAll p) w).

(** [st.lock.Closed()]; the in-flight counter of Add/Done is not modelled. *)
Definition lock_Closed : M bool := λ w, (Ok (lockClosed w), w).

(** Modelled from the spec: go-pools and go-byteutil are not under src/.  The
    pool hands out reusable buffers of length zero; what their backing array
    holds is whatever an earlier use left there, and zero for a new one.
    sync.Pool does not say which buffer a Get returns, so [bufpool] lists the
    backing arrays of the buffers that successive Gets will hand out; when the
    list is used up the pool allocates.  [Grow] lengthens the buffer over its
    backing array, or over a new zeroed array when the old one is too short. *)
Record Buffer := { B : list byte; spare : list byte }.

Definition bufpool_Get : M Buffer :=
  λ w, match bufpool w with
       | [] => (Ok {| B := []; spare := [] |}, w)
       | arr :: rest =>
           (Ok {| B := []; spare := arr |},
            mkWorld (nodeDir w) (blockDir w) (cwd w) (lockClosed w) rest (trace w))
       end.

Definition bufpool_Put (buf : Buffer) : M unit := ret tt.

Definition Buffer_Grow (buf : Buffer) (sz : nat) : Buffer :=
  if decide (sz ≤ length (spare buf))
  then {| B := B buf ++ take sz (spare buf); spare := drop sz (spare buf) |}
  else {| B := B buf ++ replicate sz x00; spare := [] |}.

(** [io.ReadFull(r, buf)] on a stream that holds the bytes [r]: the count, the
    error, the buffer afterwards and the rest of the stream. *)
Definition io_ReadFull (r : list byte) (buf : list byte)
    : nat * option error * list byte * list byte :=
  let n := Nat.min (length r) (length buf) in
  let err := if decide (n = length buf) then None
             else if decide (n = 0) then Some io_EOF
             else Some io_ErrUnexpectedEOF in
  (n, err, take n r ++ drop n buf, drop n r).

(** The buffer size [io.Copy] and [io.CopyBuffer] allocate when handed none;
    the copy pool of the store is left at its default of the same size. *)
Definition copyBufSize : nat := Z.to_nat 32768.
Arguments copyBufSize : simpl never.

(** [io.CopyBuffer(file, &nodeReader{...}, nil)]: all bytes the reader hands
    out until it reports EOF.  [fuel] bounds the number of Read calls. *)
Fixpoint copy_from_nodeReader (fuel : nat) (r : nodeReader.t) (acc : list byte)
    : result (list byte) :=
  match fuel with
  | O => Err OutOfFuel
  | S fuel =>
      match nodeReader.Read r copyBufSize with
      | None => Err Panicked
      | Some (b, err, r') =>
          match err with
          | None => copy_from_nodeReader fuel r' (acc ++ b)
          | Some io_EOF => Ok (acc ++ b)
          | Some e => Err e
          end
      end
  end.

(** [io.CopyBuffer(&nodeWriter{...}, file, nil)]: the file goes to the writer
    in pieces of [copyBufSize] bytes until one is refused. *)
Fixpoint copy_to_nodeWriter `{HashEncoder} (fuel : nat) (w : nodeWriter.t)
    (file : list byte) : result nodeWriter.t :=
  match fuel with
  | O => Err OutOfFuel
  | S fuel =>
      match file with
      | [] => Ok w
      | _ =>
          match nodeWriter.Write w (take copyBufSize file) with
          | ((_, Some e), _) => Err e
          | ((_, None), w') => copy_to_nodeWriter fuel w' (drop copyBufSize file)
          end
      end
  end.

(** The node a node file parses to. *)
Definition parseNode `{HashEncoder} (file : list byte) : result node :=
  match copy_to_nodeWriter (S (length file)) nodeWriter.new file with
  | Ok w => Ok (nodeWriter.node_ w)
  | Err e => Err e
  end.

Definition lift {A} (r : result A) : M A := λ w, (r, w).

Definition map_err {A} (f : error → error) (m : M A) : M A :=
  λ w, match m w with
       | (Ok a, w') => (Ok a, w')
       | (Err e, w') => (Err (f e), w')
       end.

(** The bytes of a well-formed node file: every hash followed by the
    separator. *)
Definition nodeBytes (n : node) : list byte :=
  flat_map (λ hash, list_byte_of_string hash ++ [hashSeparator]) (hashes n).

(** ** The store *)

Section Engine.
Context `{HashEncoder}.

Definition nodePathForKey (key : string) : result path :=
  if strings_Contains key "/" || bool_decide (key = ".") || bool_decide (key = "..")
  then Err ErrInvalidKey
  else Ok (NodePath key).

Definition blockPathForKey (hash : string) : path := BlockPath hash.

Definition readBlock (st : BlockStorage) (key : string) : M (list byte) :=
  let bpath := blockPathForKey key in
  let* file := map_err (wrap errCorruptNode) (open bpath defaultFileROFlags) in
  let* data := file_contents file in
  map_err (wrap errCorruptNode) (lift (Reader (compression st) data)).

Definition writeBlock (st : BlockStorage) (hash : string) (value : list byte) : M unit :=
  let bpath := blockPathForKey hash in
  λ w, match open bpath defaultFileRWFlags w with
       | (Err e, w') =>
           match e with
           | Errno EEXIST => (Ok tt, w')
           | _ => (Err e, w')
           end
       | (Ok file, w') =>
           match Writer (compression st) value with
           | Err e => (Err e, w')
           | Ok stored => file_Write file stored w'
           end
       end.

Definition statBlock (hash : string) : M bool := stat (blockPathForKey hash).

(** The [loop:] of [WriteStream].  A failing block write is kept in
    [onceErr] by the source and returned after the loop; with the writers
    run in place this is the same as failing at once.  [fuel] bounds the
    number of chunks. *)
Fixpoint chunkLoop (fuel : nat) (st : BlockStorage) (r : list byte) (nd : node)
    : M node :=
  match fuel with
  | O => fail OutOfFuel
  | S fuel =>
      let* buf := bufpool_Get in
      let buf := Buffer_Grow buf (Z.to_nat (BlockSize (config st))) in
      let '(n, err, bufB, r') := io_ReadFull r (B buf) in
      match err with
      | Some io_EOF => ret nd
      | None | Some io_ErrUnexpectedEOF =>
          let sum := EncodeSum bufB in
          let nd := Node (hashes nd ++ [sum]) in
          let* has := statBlock sum in
          if has then chunkLoop fuel st r' nd
          else
            let atEOF := n <? length bufB in
            let* _ := writeBlock st sum (take n bufB) in
            if atEOF then ret nd else chunkLoop fuel st r' nd
      | Some e => fail e
      end
  end.

Definition WriteStream (st : BlockStorage) (key : string) (r : list byte) : M unit :=
  let* npath := lift (nodePathForKey key) in
  let* closed := lock_Closed in
  if closed then fail ErrClosed else
  let* ok := stat (RelPath key) in
  if ok && negb (Overwrite (config st)) then fail ErrAlreadyExists else
  let* _ := os_MkdirAll NodeDir in
  let* _ := os_MkdirAll BlockDir in
  let* nd := chunkLoop (S (length r)) st r (Node []) in
  if decide (length (hashes nd) < 1) then fail errNoHashesWritten else
  let errSwap := if Overwrite (config st) then errSwapNoop else errSwapExist in
  let flags := if Overwrite (config st) then defaultFileRWFlags
               else with_O_EXCL defaultFileRWFlags in
  let* file := map_err errSwap (open npath flags) in
  let* buf := bufpool_Get in
  let* data := lift (copy_from_nodeReader (S (length (nodeBytes nd)))
                       (nodeReader.new nd) []) in
  file_Write file data.

Definition WriteBytes (st : BlockStorage) (key : string) (value : list byte) : M unit :=
  WriteStream st key value.

Definition Stat (st : BlockStorage) (key : string) : M bool :=
  let* kpath := lift (nodePathForKey key) in
  let* closed := lock_Closed in
  if closed then fail ErrClosed else
  stat kpath.

Definition Remove (st : BlockStorage) (key : string) : M unit :=
  let* kpath := lift (nodePathForKey key) in
  let* closed := lock_Closed in
  if closed then fail ErrClosed else
  map_err errSwapNotFound (unlink kpath).

(** *** Clean *)

Definition walkState : Type := gmap string node * option error * World.

(** The callback of the walk over the node directory. *)
Definition walkNode (name : string) (_ : list byte) (acc : walkState) : walkState :=
  let '(nodes, onceErr, w) := acc in
  match onceErr with
  | Some _ => acc
  | None =>
      match open (NodePath name) defaultFileROFlags w with
      | (Err e, w) => (nodes, Some e, w)
      | (Ok file, w) =>
          let '(_, w) := bufpool_Get w in
          match file_contents file w with
          | (Err e, w) => (nodes, Some e, w)
          | (Ok data, w) =>
              match parseNode data with
              | Err e => (nodes, Some e, w)
              | Ok nd => (<[name := nd]> nodes, None, w)
              end
          end
      end
  end.

(** [for key, node := range nodes { ... }] for one block name. *)
Definition scanStep (name key : string) (nd : node)
    (acc : gmap string node * bool) : gmap string node * bool :=
  let '(nodes, inUse) := acc in
  let '(nd', dropped) := removeHash nd name in
  if dropped
  then ((if decide (length (hashes nd') < 1)
         then delete key nodes
         else <[key := nd']> nodes), true)
  else (nodes, inUse).

Definition scanNodes (name : string) (nodes : gmap string node)
    : gmap string node * bool :=
  map_fold (scanStep name) (nodes, false) nodes.

(** The callback of the walk over the block directory. *)
Definition walkBlock (name : string) (_ : list byte) (acc : walkState) : walkState :=
  let '(nodes, onceErr, w) := acc in
  match onceErr with
  | Some _ => acc
  | None =>
      let '(nodes, inUse) := scanNodes name nodes in
      if inUse then (nodes, None, w)
      else
        match os_Remove (BlockPath name) w with
        | (Err e, w) => (nodes, Some e, w)
        | (Ok _, w) => (nodes, None, w)
        end
  end.

(** [util.WalkDir] lists a directory and calls back on every entry; the
    callbacks above never look at the order of the entries. *)
Definition Clean (st : BlockStorage) : M unit :=
  λ w,
    if lockClosed w then (Err ErrClosed, w) else
    let w := sys (SysReadDir NodeDir) w in
    let '(nodes, onceErr, w) := map_fold walkNode (∅, None, w) (nodeDir w) in
    match onceErr with
    | Some e => (Err e, w)
    | None =>
        let w := sys (SysReadDir BlockDir) w in
        let '(nodes, onceErr, w) := map_fold walkBlock (nodes, None, w) (blockDir w) in
        match onceErr with
        | Some e => (Err e, w)
        | None =>
            if decide (0 < size nodes)
            then (Err (ErrCorruptedNodes (map_to_list nodes).*1), w)
            else (Ok tt, w)
        end
    end.

End Engine.

(** ** blockReader: the value of a node as a byte stream *)

Module blockReader.

Record t := mk { node_ : node; buf : list byte; prev : nat }.

(** The [for { ... }] loop of [Read]: [hs] is [r.node.hashes], [b] what has
    been copied into the caller's buffer of [lenb] bytes so far. *)
Fixpoint loop `{HashEncoder} (st : BlockStorage) (hs : list string) (lenb : nat)
    (b : list byte) (buf : list byte) (prev : nat) (w : World)
    : (list byte * option error * t) * World :=
  match hs with
  | [] => ((b, Some io_EOF, mk (Node []) buf prev), w)
  | key :: hs' =>
      match readBlock st key w with
      | (Err e, w') => ((b, Some e, mk (Node hs') [] prev), w')
      | (Ok data, w') =>
          let m := Nat.min (lenb - length b) (length data) in
          let b := b ++ take m data in
          if decide (lenb ≤ length b)
          then ((b, None, mk (Node hs') data m), w')
          else loop st hs' lenb b data m w'
      end
  end.

Definition Read `{HashEncoder} (st : BlockStorage) (r : t) (lenb : nat)
    : World → (list byte * option error * t) * World :=
  λ w,
    if (Z.of_nat (prev r) <? Z.of_nat (length (buf r)) - 1)%Z then
      let b := take lenb (drop (prev r) (buf r)) in
      let prev' := prev r + length b in
      if decide (lenb ≤ length b)
      then ((b, None, mk (node_ r) (buf r) prev'), w)
      else loop st (hashes (node_ r)) lenb b (buf r) prev' w
    else loop st (hashes (node_ r)) lenb [] (buf r) (prev r) w.

(** Successive [Read] calls with buffers of the given sizes: the bytes
    received, and the error that ended the stream if one did. *)
Fixpoint pull `{HashEncoder} (st : BlockStorage) (r : t) (sizes : list nat)
    (w : World) : list byte * option error :=
  match sizes with
  | [] => ([], None)
  | lenb :: sizes' =>
      let '((b, err, r'), w') := Read st r lenb w in
      match err with
      | Some e => (b, Some e)
      | None => let '(rest, e) := pull st r' sizes' w' in (b ++ rest, e)
      end
  end.

End blockReader.

Section Engine_read.
Context `{HashEncoder}.

Definition ReadStream (st : BlockStorage) (key : string) : M blockReader.t :=
  let* npath := lift (nodePathForKey key) in
  let* closed := lock_Closed in
  if closed then fail ErrClosed else
  let* file := map_err errSwapNotFound (open npath defaultFileROFlags) in
  let* hbuf := bufpool_Get in
  let* data := file_contents file in
  let* nd := lift (parseNode data) in
  ret (blockReader.mk nd [] 0).

End Engine_read.

(** ** What Clean computes, stated on maps *)

(** What one pass of [scanNodes] leaves of a node. *)
Definition visit (name : string) (nd : node) : option node :=
  let hs := filter (λ h, h ≠ name) (hashes nd) in
  if decide (name ∈ hashes nd ∧ hs = []) then None else Some (Node hs).

(** What is left of a node once the block names in [seen] have been scanned:
    the node is dropped when removing a name emptied it. *)
Definition residual (seen : gset string) (nd : node) : option node :=
  let hs := filter (λ h, h ∉ seen) (hashes nd) in
  if decide (hs = [] ∧ hashes nd ≠ []) then None else Some (Node hs).

(** Some node lists the block name. *)
Definition referenced (nodes : gmap string node) (name : string) : Prop :=
  ∃ key nd, nodes !! key = Some nd ∧ name ∈ hashes nd.

(** The first walk of Clean without the file-system calls. *)
Definition parseStep `{HashEncoder} (name : string) (data : list byte)
    (acc : gmap string node * option error) : gmap string node * option error :=
  match acc.2 with
  | Some _ => acc
  | None =>
      match parseNode data with
      | Err e => (acc.1, Some e)
      | Ok nd => (<[name := nd]> acc.1, None)
      end
  end.

Definition parseAll `{HashEncoder} (dir : gmap string (list byte))
    : gmap string node * option error :=
  map_fold parseStep (∅, None) dir.

(** The node a node file stands for, if it parses. *)
Definition nodeOf `{HashEncoder} (file : list byte) : option node :=
  match parseNode file with
  | Ok nd => Some nd
  | Err _ => None
  end.

(** The outcome of Clean for the nodes left over by the second walk. *)
Definition cleanResult (nodes : gmap string node) : result unit :=
  if decide (0 < size nodes)
  then Err (ErrCorruptedNodes (map_to_list nodes).*1)
  else Ok tt.

(** The node file of some key lists the block name. *)
Definition listed `{HashEncoder} (w : World) (name : string) : Prop :=
  ∃ key file nd,
    nodeDir w !! key = Some file ∧ nodeOf file = Some nd ∧ name ∈ hashes nd.

(** The node file of [key] lists a hash that has no block file. *)
Definition dangling `{HashEncoder} (w : World) (key : string) : Prop :=
  ∃ file nd hash,
    nodeDir w !! key = Some file ∧ nodeOf file = Some nd ∧
    hash ∈ hashes nd ∧ blockDir w !! hash = None.

(** The directories and the lock flag of a world. *)
Definition same_files (w w' : World) : Prop :=
  nodeDir w' = nodeDir w ∧ blockDir w' = blockDir w ∧
  cwd w' = cwd w ∧ lockClosed w' = lockClosed w.

(** ** An encoder to run the model with

    A 43-character name over two letters, computed from a rolling sum.  It
    stands in for SHA-256 under base64 wherever a concrete encoder is needed. *)
Definition demoSum (src : list byte) : N :=
  fold_left (λ a x, (a * 257 + Byte.to_N x + 1) mod 2 ^ 43)%N src 0%N.

Fixpoint demoLetters (k : nat) (h : N) : list byte :=
  match k with
  | O => []
  | S k => (if N.odd h then "B"%byte else "A"%byte) :: demoLetters k (N.div2 h)
  end.

Definition demoEncodeSum (src : list byte) : string :=
  string_of_list_byte (demoLetters 43 (demoSum src)).

#[export] Program Instance demoEncoder : HashEncoder :=
  {| encodedHashLen := 43; EncodeSum := demoEncodeSum |}.
Next Obligation.
  intros src. unfold demoEncodeSum.
  assert (Hlen : ∀ s, length (list_byte_of_string s) = String.length s).
  { induction s as [|a s IH]; [done|].
    change (list_byte_of_string (String a s))
      with (byte_of_ascii a :: list_byte_of_string s).
    simpl. by rewrite IH. }
  rewrite <- Hlen, list_byte_of_string_of_list_byte.
  generalize (demoSum src). generalize 43.
  induction n as [|k IH]; intros h; simpl; [done|by rewrite IH].
Qed.
Next Obligation.
  intros src. unfold demoEncodeSum.
  rewrite list_byte_of_string_of_list_byte.
  generalize (demoSum src). generalize 43.
  induction n as [|k IH]; intros h; simpl.
  - apply not_elem_of_nil.
  - apply not_elem_of_cons. split; [|apply IH].
    unfold hashSeparator. by destruct (N.odd h).
Qed.

(** The bytes of the buffer that the next Get from the pool, grown to [sz]
    bytes, starts out with. *)
Definition nextBuffer (w : World) (sz : nat) : list byte :=
  match bufpool w with
  | [] => replicate sz x00
  | arr :: _ => if decide (sz ≤ length arr) then take sz arr else replicate sz x00
  end.

(** A name as the encoder produces them. *)
Definition validHash `{HashEncoder} (hash : string) : Prop :=
  String.length hash = encodedHashLen ∧ hashSeparator ∉ list_byte_of_string hash.

(** ** Sample stores *)

Definition emptyWorld : World := mkWorld ∅ ∅ ∅ false [] [].

Definition abc : list byte := list_byte_of_string "abc".

Definition hashA : string := "AAAAAAAAAAAAAAAAAAAAAAAAAAAAAAAAAAAAAAAAAAA".
Definition hashB : string := "BBBBBBBBBBBBBBBBBBBBBBBBBBBBBBBBBBBBBBBBBBB".
Definition hashC : string := "CCCCCCCCCCCCCCCCCCCCCCCCCCCCCCCCCCCCCCCCCCC".

(** One key whose node lists [hashA] twice and [hashB]; block files for
    [hashA] and for [hashC], none for [hashB]. *)
Definition sampleWorld : World :=
  mkWorld {[ "a" := nodeBytes (Node [hashA; hashA; hashB]) ]}
          (<[hashA := abc]> {[ hashC := abc ]}) ∅ false [] [].

(** One key whose node lists [hashA] twice, and the block file for it. *)
Definition twiceWorld : World :=
  mkWorld {[ "d" := nodeBytes (Node [hashA; hashA]) ]} {[ hashA := abc ]}
          ∅ false [] [].

Ltac Zltb_false :=
  match goal with
  | |- context [(?a <? ?b)%Z] =>
      replace (a <? b)%Z with false by (symmetry; apply Z.ltb_ge; lia)
  end.

Ltac Zltb_true :=
  match goal with
  | |- context [(?a <? ?b)%Z] =>
      replace (a <? b)%Z with true by (symmetry; apply Z.ltb_lt; lia)
  end.

(** ** Further notions for Clean *)

(** The node file of [key] parses to a node that Clean cannot account for: it
    lists no hash at all, or a hash without a block file. *)
Definition unsatisfied `{HashEncoder} (w : World) (key : string) : Prop :=
  ∃ file nd,
    nodeDir w !! key = Some file ∧ nodeOf file = Some nd ∧
    (hashes nd = [] ∨ ∃ hash, hash ∈ hashes nd ∧ blockDir w !! hash = None).

(** Some node file other than that of [key] lists the block name. *)
Definition listed_elsewhere `{HashEncoder} (w : World) (key name : string) : Prop :=
  ∃ key' file nd,
    key' ≠ key ∧ nodeDir w !! key' = Some file ∧ nodeOf file = Some nd ∧
    name ∈ hashes nd.

(** Successive [Write] calls on a nodeWriter, one per piece, stopping at the
    first error. *)
Fixpoint nodeWriter_feed `{HashEncoder} (w : nodeWriter.t) (pieces : list (list byte))
    : result nodeWriter.t :=
  match pieces with
  | [] => Ok w
  | b :: pieces' =>
      match nodeWriter.Write w b with
      | ((_, Some e), _) => Err e
      | ((_, None), w') => nodeWriter_feed w' pieces'
      end
  end.

(** ** Further notions for the store *)

(** From [w] to [w']: node files, working directory and lock are as before,
    and every block file of [w] is still there with the same bytes. *)
Definition blocks_grow (w w' : World) : Prop :=
  nodeDir w' = nodeDir w ∧ blockDir w ⊆ blockDir w' ∧
  cwd w' = cwd w ∧ lockClosed w' = lockClosed w.

Ltac frame_leaf Hn Hl :=
  split_and!; try done; try congruence;
  try (intros; rewrite Hn; done); try (rewrite Hl; done).

Ltac finish_leaf Hn Hl :=
  first [ done
        | by rewrite Hl
        | by rewrite lookup_insert_eq
        | by intros ? ?; rewrite lookup_insert_ne by done; rewrite Hn ].

(** [WalkKeys]: [opts.WalkFn] is called on the name of every regular file of
    the node directory.  What the callback does is a state [T] that it
    threads through the calls. *)
Definition WalkKeys {T : Type} (st : BlockStorage) (WalkFn : string → T → T)
    (s : T) : M T :=
  let* closed := lock_Closed in
  if closed then fail ErrClosed else
  λ w, let w := sys (SysReadDir NodeDir) w in
       (Ok (map_fold (λ name _ acc, WalkFn name acc) s (nodeDir w)), w).

(** What [readBlock] makes of the block file [hash]: its bytes through the
    decompressor. *)
Definition blockValue (st : BlockStorage) (w : World) (hash : string)
    : option (list byte) :=
  match blockDir w !! hash with
  | Some stored =>
      match Reader (compression st) stored with
      | Ok value => Some value
      | Err _ => None
      end
  | None => None
  end.

(** * Properties *)

(** ** Lists, bytes and strings *)

Lemma length_list_byte_of_string s :
  length (list_byte_of_string s) = String.length s.
Proof.
  induction s as [|a s IH]; [done|].
  change (list_byte_of_string (String a s))
    with (byte_of_ascii a :: list_byte_of_string s).
  simpl. by rewrite IH.
Qed.

(** ** removeHash *)

Lemma removeHash_loop_spec fuel : ∀ hs i hash d,
  length hs - i ≤ fuel →
  removeHash_loop fuel hs i hash d =
    (take i hs ++ filter (λ h, h ≠ hash) (drop i hs),
     d || bool_decide (hash ∈ drop i hs)).
Proof.
  induction fuel as [|fuel IH]; intros hs i hash d Hfuel; simpl.
  - rewrite drop_ge, take_ge by lia. by rewrite app_nil_r, orb_false_r.
  - destruct (hs !! i) as [h|] eqn:Hi.
    + pose proof (lookup_lt_Some _ _ _ Hi) as Hlt.
      rewrite (drop_S _ _ _ Hi).
      destruct (decide (h = hash)) as [->|Hne].
      * rewrite IH by (rewrite length_app, length_take, length_drop; lia).
        rewrite take_app_length' by (rewrite length_take; lia).
        rewrite drop_app_length' by (rewrite length_take; lia).
        rewrite filter_cons_False by (by intros Hx; apply Hx). simpl.
        rewrite (bool_decide_eq_true_2 (hash ∈ hash :: _)) by apply list_elem_of_here.
        by rewrite orb_true_r.
      * rewrite IH by lia.
        rewrite (take_S_r _ _ _ Hi), <- app_assoc. simpl.
        rewrite filter_cons_True by done.
        do 2 f_equal. apply bool_decide_ext.
        rewrite elem_of_cons. split; [by right|by intros [->|?]].
    + apply lookup_ge_None in Hi.
      rewrite drop_ge, take_ge by lia. by rewrite app_nil_r, orb_false_r.
Qed.

Lemma removeHash_spec nd hash :
  removeHash nd hash =
    (Node (filter (λ h, h ≠ hash) (hashes nd)), bool_decide (hash ∈ hashes nd)).
Proof.
  unfold removeHash. rewrite removeHash_loop_spec by lia. by rewrite drop_0.
Qed.

Lemma filter_ne_id (name : string) (hs : list string) :
  name ∉ hs → filter (λ h, h ≠ name) hs = hs.
Proof.
  induction hs as [|h hs IH]; [done|].
  rewrite not_elem_of_cons. intros [Hne Hnot].
  rewrite filter_cons_True by done. by rewrite IH.
Qed.

(** ** The scan of the nodes for one block name *)

Lemma scanStep_fold name (m : gmap string node) : ∀ acc,
  m ⊆ acc →
  (∀ k, (map_fold (scanStep name) (acc, false) m).1 !! k =
          match m !! k with
          | Some nd => visit name nd
          | None => acc !! k
          end) ∧
  ((map_fold (scanStep name) (acc, false) m).2 = true ↔ referenced m name).
Proof.
  induction m as [|i x m Hi Hfirst IH] using map_first_key_ind; intros acc Hsub.
  - rewrite map_fold_empty. split; [done|]. simpl. split; [done|].
    intros (k & nd & Hk & _). by rewrite lookup_empty in Hk.
  - rewrite map_fold_insert_first_key by done.
    assert (Hacc : acc !! i = Some x).
    { eapply lookup_weaken; [apply lookup_insert_eq|done]. }
    destruct (IH acc) as [IHl IHu].
    { etrans; [by apply insert_subseteq|done]. }
    destruct (map_fold (scanStep name) (acc, false) m) as [nodes1 u1].
    simpl in IHl, IHu. unfold scanStep. rewrite removeHash_spec.
    destruct (decide (name ∈ hashes x)) as [Hin|Hnin].
    + rewrite bool_decide_eq_true_2 by done. simpl. split.
      * intros k. destruct (decide (k = i)) as [->|Hne].
        -- rewrite lookup_insert_eq. unfold visit.
           destruct (filter _ (hashes x)) as [|h hs'] eqn:Hf; simpl.
           ++ rewrite lookup_delete_eq. by rewrite decide_True.
           ++ rewrite lookup_insert_eq.
              by rewrite decide_False by (by intros [_ ?]).
        -- rewrite lookup_insert_ne by done.
           case_decide; [rewrite lookup_delete_ne by done
                        |rewrite lookup_insert_ne by done]; apply IHl.
      * split; [|done]. intros _. exists i, x. by rewrite lookup_insert_eq.
    + rewrite bool_decide_eq_false_2 by done. simpl. split.
      * intros k. destruct (decide (k = i)) as [->|Hne].
        -- rewrite lookup_insert_eq, IHl, Hi, Hacc. unfold visit.
           rewrite decide_False by (by intros [? _]).
           rewrite filter_ne_id by done. by destruct x.
        -- rewrite lookup_insert_ne by done. apply IHl.
      * rewrite IHu. split.
        -- intros (k & nd & Hk & Hnd). exists k, nd. split; [|done].
           rewrite lookup_insert_ne; [done|]. intros <-. by rewrite Hi in Hk.
        -- intros (k & nd & Hk & Hnd). exists k, nd. split; [|done].
           rewrite lookup_insert_ne in Hk; [done|]. intros <-.
           rewrite lookup_insert_eq in Hk. by simplify_eq.
Qed.

Lemma scanNodes_spec name (nodes : gmap string node) :
  (scanNodes name nodes).1 = omap (visit name) nodes ∧
  ((scanNodes name nodes).2 = true ↔ referenced nodes name).
Proof.
  destruct (scanStep_fold name nodes nodes) as [Hl Hu]; [done|].
  split; [|done]. apply map_eq. intros k.
  unfold scanNodes. rewrite Hl, lookup_omap. by destruct (nodes !! k).
Qed.
(** ** The walk over the block directory *)

Lemma residual_visit (seen : gset string) (i : string) (nd : node) :
  residual seen nd ≫= visit i = residual ({[i]} ∪ seen) nd.
Proof.
  unfold residual.
  assert (Hf : filter (λ h, h ∉ ({[i]} ∪ seen : gset string)) (hashes nd) =
               filter (λ h, h ≠ i) (filter (λ h, h ∉ seen) (hashes nd))).
  { rewrite list_filter_filter. apply list_filter_iff. intros h.
    rewrite not_elem_of_union, not_elem_of_singleton. done. }
  rewrite Hf. clear Hf.
  remember (filter (λ h, h ∉ seen) (hashes nd)) as A eqn:HA.
  destruct (decide (A = [] ∧ hashes nd ≠ [])) as [[He Hne]|Hno]; simpl.
  - rewrite He. simpl. by rewrite decide_True.
  - unfold visit. simpl.
    destruct (decide (i ∈ A ∧ filter (λ h, h ≠ i) A = [])) as [[Hi Hb]|Hn1];
      destruct (decide (filter (λ h, h ≠ i) A = [] ∧ hashes nd ≠ [])) as [[Hb' Hne]|Hn2];
      try done.
    + exfalso. apply Hn2. split; [done|]. intros Hnil.
      rewrite Hnil in HA. simpl in HA. subst A. by apply elem_of_nil in Hi.
    + exfalso. destruct A as [|h t]; [by apply Hno|].
      destruct (decide (h = i)) as [->|Hhi].
      * apply Hn1. split; [apply list_elem_of_here|done].
      * by rewrite filter_cons_True in Hb' by done.
Qed.

Lemma filter_all {A} (P : A → Prop) `{!∀ x, Decision (P x)} (l : list A) :
  (∀ x, P x) → filter P l = l.
Proof.
  intros HP. induction l as [|x l IH]; [done|].
  rewrite filter_cons_True by done. by rewrite IH.
Qed.

Lemma residual_empty (nd : node) : residual ∅ nd = Some nd.
Proof.
  unfold residual. rewrite filter_all by (intros x; apply not_elem_of_empty).
  rewrite decide_False by (by intros [? ?]). by destruct nd.
Qed.

Lemma referenced_residual (seen : gset string) (nodes nodes1 : gmap string node)
    (name : string) :
  name ∉ seen →
  (∀ k, nodes1 !! k = nodes !! k ≫= residual seen) →
  referenced nodes1 name ↔ referenced nodes name.
Proof.
  intros Hseen Hl. split.
  - intros (k & nd1 & Hk & Hin). rewrite Hl in Hk.
    destruct (nodes !! k) as [nd|] eqn:Hnd; [|done]. simpl in Hk.
    exists k, nd. split; [done|]. unfold residual in Hk.
    case_decide; [done|]. simplify_eq. simpl in Hin.
    by apply list_elem_of_filter in Hin as [_ ?].
  - intros (k & nd & Hk & Hin).
    assert (Hin' : name ∈ filter (λ h, h ∉ seen) (hashes nd)).
    { by apply list_elem_of_filter. }
    exists k, (Node (filter (λ h, h ∉ seen) (hashes nd))). split; [|done].
    rewrite Hl, Hk. simpl. unfold residual.
    rewrite decide_False; [done|]. intros [He _]. rewrite He in Hin'.
    by apply elem_of_nil in Hin'.
Qed.

Section Clean_walks.
Context `{HashEncoder}.

Lemma walkBlock_fold (m : gmap string (list byte)) : ∀ nodes w,
  (∀ b, is_Some (m !! b) → is_Some (blockDir w !! b)) →
  ∃ w',
    map_fold walkBlock (nodes, None, w) m = (omap (residual (dom m)) nodes, None, w') ∧
    nodeDir w' = nodeDir w ∧ cwd w' = cwd w ∧ lockClosed w' = lockClosed w ∧
    (∀ b, m !! b = None → blockDir w' !! b = blockDir w !! b) ∧
    (∀ b, referenced nodes b → blockDir w' !! b = blockDir w !! b) ∧
    (∀ b, is_Some (m !! b) → ¬ referenced nodes b → blockDir w' !! b = None).
Proof.
  induction m as [|i x m Hi Hfirst IH] using map_first_key_ind; intros nodes w Hsub.
  - rewrite map_fold_empty. exists w. split_and!; try done.
    + f_equal. f_equal. apply map_eq. intros k. rewrite lookup_omap, dom_empty_L.
      destruct (nodes !! k) as [nd|]; [|done]. simpl. by rewrite residual_empty.
    + intros b [? Hb]. by rewrite lookup_empty in Hb.
  - rewrite map_fold_insert_first_key by done.
    destruct (IH nodes w) as (w1 & Hfold & Hn1 & Hc1 & Hl1 & Hkeep1 & Href1 & Hdel1).
    { intros b Hb. apply Hsub. destruct (decide (b = i)) as [->|Hne].
      - by rewrite lookup_insert_eq.
      - by rewrite lookup_insert_ne. }
    rewrite Hfold. unfold walkBlock.
    destruct (scanNodes_spec i (omap (residual (dom m)) nodes)) as [Hscan Huse].
    destruct (scanNodes i (omap (residual (dom m)) nodes)) as [nodes2 inUse].
    simpl in Hscan, Huse.
    assert (Hidom : i ∉ dom m) by (by apply not_elem_of_dom).
    assert (Hnodes2 : nodes2 = omap (residual (dom (<[i:=x]> m))) nodes).
    { rewrite Hscan. apply map_eq. intros k. rewrite !lookup_omap, dom_insert_L.
      destruct (nodes !! k) as [nd|]; [|done]. simpl. apply residual_visit. }
    assert (Hrefi : referenced (omap (residual (dom m)) nodes) i ↔ referenced nodes i).
    { apply (referenced_residual (dom m)); [done|]. intros k. apply lookup_omap. }
    destruct inUse.
    + exists w1. rewrite Hnodes2. split_and!; try done.
      * intros b Hb. apply Hkeep1. destruct (decide (b = i)) as [->|Hne].
        -- by rewrite lookup_insert_eq in Hb.
        -- by rewrite lookup_insert_ne in Hb.
      * intros b Hb Hnr. destruct (decide (b = i)) as [->|Hne].
        -- exfalso. apply Hnr, Hrefi, Huse. done.
        -- rewrite lookup_insert_ne in Hb by done. by apply Hdel1.
    + assert (Hnr : ¬ referenced nodes i).
      { intros Hr. apply Hrefi, Huse in Hr. done. }
      assert (Hex : is_Some (blockDir w1 !! i)).
      { rewrite Hkeep1 by done. apply Hsub. by rewrite lookup_insert_eq. }
      unfold os_Remove, unlink. simpl.
      rewrite bool_decide_eq_true_2 by done. simpl.
      eexists. rewrite Hnodes2. split; [reflexivity|]. simpl. split_and!; try done.
      * intros b Hb. destruct (decide (b = i)) as [->|Hne].
        -- by rewrite lookup_insert_eq in Hb.
        -- rewrite lookup_insert_ne in Hb by done.
           rewrite lookup_delete_ne by done. by apply Hkeep1.
      * intros b Hb. destruct (decide (b = i)) as [->|Hne]; [done|].
        rewrite lookup_delete_ne by done. by apply Href1.
      * intros b Hb Hnrb. destruct (decide (b = i)) as [->|Hne].
        -- apply lookup_delete_eq.
        -- rewrite lookup_insert_ne in Hb by done.
           rewrite lookup_delete_ne by done. by apply Hdel1.
Qed.

End Clean_walks.

Section Clean_spec.
Context `{HashEncoder}.

Lemma same_files_sys c w : same_files w (sys c w).
Proof. done. Qed.

Lemma same_files_trans w1 w2 w3 :
  same_files w1 w2 → same_files w2 w3 → same_files w1 w3.
Proof.
  intros (? & ? & ? & ?) (? & ? & ? & ?). unfold same_files. split_and!; congruence.
Qed.

Lemma bufpool_Get_same_files w : same_files w (bufpool_Get w).2.
Proof. unfold bufpool_Get. by destruct (bufpool w). Qed.

(** The first walk computes [parseStep] and leaves the files alone. *)
Lemma walkNode_fold (m : gmap string (list byte)) : ∀ acc w,
  m ⊆ nodeDir w →
  ∃ w',
    map_fold walkNode (acc.1, acc.2, w) m =
      ((map_fold parseStep acc m).1, (map_fold parseStep acc m).2, w') ∧
    same_files w w'.
Proof.
  induction m as [|i x m Hi Hfirst IH] using map_first_key_ind; intros acc w Hsub.
  - rewrite !map_fold_empty. by exists w.
  - rewrite !map_fold_insert_first_key by done.
    destruct (IH acc w) as (w1 & Hfold & Hsame).
    { etrans; [by apply insert_subseteq|done]. }
    rewrite Hfold. clear Hfold.
    destruct (map_fold parseStep acc m) as [nodes1 e1]. simpl.
    unfold parseStep. simpl. destruct e1 as [e|]; [by exists w1|].
    assert (Hfile : nodeDir w1 !! i = Some x).
    { destruct Hsame as (-> & _). eapply lookup_weaken; [apply lookup_insert_eq|done]. }
    unfold open. simpl. rewrite Hfile. simpl.
    pose proof (bufpool_Get_same_files (sys (SysOpen (NodePath i) defaultFileROFlags) w1))
      as Hget.
    destruct (bufpool_Get _) as [r w2]. simpl in Hget.
    assert (Hsame2 : same_files w w2).
    { eapply same_files_trans; [done|]. eapply same_files_trans; [|done]. done. }
    unfold file_contents. simpl.
    assert (Hfile2 : nodeDir w2 !! i = Some x).
    { destruct Hget as (-> & _). done. }
    rewrite Hfile2.
    destruct (parseNode x) as [nd|e]; by exists w2.
Qed.

Lemma parseStep_fold_ok (m : gmap string (list byte)) : ∀ acc,
  (∀ k file, m !! k = Some file → is_Some (nodeOf file)) →
  (map_fold parseStep (acc, None) m).2 = None ∧
  ∀ k, (map_fold parseStep (acc, None) m).1 !! k =
         match m !! k with
         | Some file => nodeOf file
         | None => acc !! k
         end.
Proof.
  induction m as [|i x m Hi Hfirst IH] using map_first_key_ind; intros acc Hok.
  - by rewrite map_fold_empty.
  - rewrite map_fold_insert_first_key by done.
    destruct (IH acc) as [He Hl].
    { intros k file Hk. apply (Hok k). rewrite lookup_insert_ne; [done|].
      intros <-. by rewrite Hi in Hk. }
    destruct (map_fold parseStep (acc, None) m) as [nodes1 e1].
    simpl in He, Hl. subst e1. unfold parseStep. simpl.
    destruct (Hok i x) as [nd Hnd]; [apply lookup_insert_eq|].
    unfold nodeOf in Hnd. destruct (parseNode x) as [nd'|e] eqn:Hp; [|done].
    simplify_eq. simpl. split; [done|]. intros k.
    destruct (decide (k = i)) as [->|Hne].
    + rewrite !lookup_insert_eq. unfold nodeOf. by rewrite Hp.
    + rewrite !lookup_insert_ne by done. apply Hl.
Qed.

Lemma parseAll_ok (dir : gmap string (list byte)) :
  (∀ k file, dir !! k = Some file → is_Some (nodeOf file)) →
  (parseAll dir).2 = None ∧
  ∀ k, (parseAll dir).1 !! k = dir !! k ≫= nodeOf.
Proof.
  intros Hok. destruct (parseStep_fold_ok dir ∅ Hok) as [He Hl].
  split; [done|]. intros k. unfold parseAll. rewrite Hl.
  by destruct (dir !! k).
Qed.

Lemma referenced_dec (nodes : gmap string node) (name : string) :
  referenced nodes name ∨ ¬ referenced nodes name.
Proof.
  destruct (scanNodes_spec name nodes) as [_ Hu].
  destruct (scanNodes name nodes).2; [left; by apply Hu|right].
  intros Hr. by apply Hu in Hr.
Qed.

(** Clean, in terms of what the node files parse to. *)
Lemma Clean_spec (st : BlockStorage) (w : World) :
  lockClosed w = false →
  ∃ w',
    nodeDir w' = nodeDir w ∧ cwd w' = cwd w ∧ lockClosed w' = lockClosed w ∧
    match (parseAll (nodeDir w)).2 with
    | Some e => Clean st w = (Err e, w') ∧ blockDir w' = blockDir w
    | None =>
        Clean st w =
          (cleanResult (omap (residual (dom (blockDir w))) (parseAll (nodeDir w)).1), w') ∧
        (∀ b, referenced (parseAll (nodeDir w)).1 b →
              blockDir w' !! b = blockDir w !! b) ∧
        (∀ b, ¬ referenced (parseAll (nodeDir w)).1 b → blockDir w' !! b = None)
    end.
Proof.
  intros Hopen. unfold Clean. rewrite Hopen.
  destruct (walkNode_fold (nodeDir w) (∅, None) (sys (SysReadDir NodeDir) w))
    as (w1 & Hfold & Hn1 & Hb1 & Hc1 & Hl1); [done|].
  simpl in Hfold. change (nodeDir (sys (SysReadDir NodeDir) w)) with (nodeDir w).
  rewrite Hfold. clear Hfold. fold (parseAll (nodeDir w)).
  simpl in Hn1, Hb1, Hc1, Hl1.
  destruct (parseAll (nodeDir w)) as [nodes e]. simpl.
  destruct e as [e|].
  { exists w1. split_and!; congruence. }
  destruct (walkBlock_fold (blockDir w) nodes (sys (SysReadDir BlockDir) w1))
    as (w2 & Hfold & Hn2 & Hc2 & Hl2 & Hkeep & Href & Hdel).
  { intros b Hb. simpl. by rewrite Hb1. }
  simpl in Hn2, Hc2, Hl2, Hkeep, Href, Hdel.
  change (blockDir (sys (SysReadDir BlockDir) w1)) with (blockDir w1).
  rewrite Hb1, Hfold. exists w2. split_and!; try congruence.
  - unfold cleanResult. by case_decide.
  - intros b Hb. rewrite Href by done. by rewrite Hb1.
  - intros b Hb. destruct (blockDir w !! b) as [data|] eqn:Hdata.
    + apply Hdel; [|done]. by rewrite Hdata.
    + rewrite Hkeep by done. by rewrite Hb1.
Qed.

End Clean_spec.

Section Clean_claims.
Context `{HashEncoder}.

Lemma referenced_parseAll (w : World) (name : string) :
  (∀ key file, nodeDir w !! key = Some file → is_Some (nodeOf file)) →
  referenced (parseAll (nodeDir w)).1 name ↔ listed w name.
Proof.
  intros Hok. destruct (parseAll_ok (nodeDir w) Hok) as [_ Hl]. split.
  - intros (k & nd & Hk & Hin). rewrite Hl in Hk.
    destruct (nodeDir w !! k) as [file|] eqn:Hfile; [|done].
    by exists k, file, nd.
  - intros (k & file & nd & Hfile & Hnd & Hin). exists k, nd.
    split; [|done]. by rewrite Hl, Hfile.
Qed.

Lemma elem_of_keys (nodes : gmap string node) (k : string) :
  k ∈ (map_to_list nodes).*1 ↔ is_Some (nodes !! k).
Proof.
  rewrite list_elem_of_fmap. split.
  - intros ([k' nd] & -> & Hin). apply elem_of_map_to_list in Hin. by exists nd.
  - intros [nd Hnd]. exists (k, nd). split; [done|]. by apply elem_of_map_to_list.
Qed.

Lemma cleanResult_keys (nodes : gmap string node) (k : string) :
  is_Some (nodes !! k) →
  ∃ nodeKeys, cleanResult nodes = Err (ErrCorruptedNodes nodeKeys) ∧
              ∀ k', k' ∈ nodeKeys ↔ is_Some (nodes !! k').
Proof.
  intros Hk. unfold cleanResult. rewrite decide_True.
  - eexists. split; [done|]. apply elem_of_keys.
  - pose proof (map_size_ne_0_lookup_2 nodes k Hk). lia.
Qed.

Lemma cleanResult_Err_inv (nodes : gmap string node) nodeKeys (k : string) :
  cleanResult nodes = Err (ErrCorruptedNodes nodeKeys) →
  k ∈ nodeKeys → is_Some (nodes !! k).
Proof.
  unfold cleanResult. case_decide; [|done]. intros [= <-]. apply elem_of_keys.
Qed.

(** C4.  Clean never changes the node directory.  When it gets through both
    walks (open store, every node file parses): a block file whose name no
    node lists is gone and the others are kept; and if some node lists a hash
    without a block file, the result is one corrupted-nodes error that names
    every such key. *)
Theorem Clean_collects_garbage (st : BlockStorage) (w : World) :
  nodeDir (Clean st w).2 = nodeDir w ∧
  (lockClosed w = false →
   (∀ key file, nodeDir w !! key = Some file → is_Some (nodeOf file)) →
   ∃ res w',
     Clean st w = (res, w') ∧
     (∀ name, ¬ listed w name → blockDir w' !! name = None) ∧
     (∀ name, listed w name → blockDir w' !! name = blockDir w !! name) ∧
     ((∃ key, dangling w key) →
        ∃ nodeKeys, res = Err (ErrCorruptedNodes nodeKeys) ∧
                    ∀ key, dangling w key → key ∈ nodeKeys)).
Proof.
  split.
  { destruct (lockClosed w) eqn:Hopen.
    - unfold Clean. by rewrite Hopen.
    - destruct (Clean_spec st w Hopen) as (w' & Hn & _ & _ & Hres).
      destruct (parseAll (nodeDir w)).2; destruct Hres as [-> _]; done. }
  intros Hopen Hok.
  destruct (Clean_spec st w Hopen) as (w' & Hn & _ & _ & Hres).
  destruct (parseAll_ok (nodeDir w) Hok) as [He Hl].
  rewrite He in Hres. destruct Hres as (Hclean & Hkeep & Hdel).
  eexists _, w'. split; [exact Hclean|]. split_and!.
  - intros name Hnot. apply Hdel. by rewrite referenced_parseAll.
  - intros name Hlisted. apply Hkeep. by rewrite referenced_parseAll.
  - assert (Hleft : ∀ key, dangling w key →
      is_Some (omap (residual (dom (blockDir w))) (parseAll (nodeDir w)).1 !! key)).
    { intros key (file & nd & hash & Hfile & Hnd & Hin & Hmiss).
      rewrite lookup_omap, Hl, Hfile. simpl. rewrite Hnd. simpl.
      unfold residual. rewrite decide_False; [done|]. intros [Hnil _].
      assert (Hin' : hash ∈ filter (λ h, h ∉ dom (blockDir w)) (hashes nd)).
      { apply list_elem_of_filter. split; [|done]. by apply not_elem_of_dom. }
      rewrite Hnil in Hin'. by apply elem_of_nil in Hin'. }
    intros [key Hkey].
    destruct (cleanResult_keys _ key (Hleft key Hkey)) as (nodeKeys & Hr & Hkeys).
    exists nodeKeys. split; [done|]. intros key' Hkey'. by apply Hkeys, Hleft.
Qed.

(** C10.  A node whose hashes all have a block file, however often it lists
    each of them, is not among the keys Clean reports, and none of its
    blocks is deleted; scanning a block name takes every occurrence of it
    out of the list. *)
Theorem Clean_duplicate_references (st : BlockStorage) (w : World)
    (key : string) (file : list byte) (nd : node) :
  lockClosed w = false →
  (∀ key file, nodeDir w !! key = Some file → is_Some (nodeOf file)) →
  nodeDir w !! key = Some file →
  nodeOf file = Some nd →
  hashes nd ≠ [] →
  (∀ hash, hash ∈ hashes nd → is_Some (blockDir w !! hash)) →
  (∀ hash, hash ∉ hashes (removeHash nd hash).1) ∧
  ∃ res w',
    Clean st w = (res, w') ∧
    (∀ nodeKeys, res = Err (ErrCorruptedNodes nodeKeys) → key ∉ nodeKeys) ∧
    (∀ hash, hash ∈ hashes nd → blockDir w' !! hash = blockDir w !! hash).
Proof.
  intros Hopen Hok Hfile Hnd Hne Hblocks. split.
  { intros hash. rewrite removeHash_spec. simpl.
    rewrite list_elem_of_filter. by intros [? _]. }
  destruct (Clean_spec st w Hopen) as (w' & Hn & _ & _ & Hres).
  destruct (parseAll_ok (nodeDir w) Hok) as [He Hl].
  rewrite He in Hres. destruct Hres as (Hclean & Hkeep & Hdel).
  eexists _, w'. split; [exact Hclean|]. split.
  - intros nodeKeys Hr Hin.
    apply (cleanResult_Err_inv _ _ key Hr) in Hin as [nd' Hnd'].
    rewrite lookup_omap, Hl, Hfile in Hnd'. simpl in Hnd'.
    rewrite Hnd in Hnd'. simpl in Hnd'. unfold residual in Hnd'.
    rewrite decide_True in Hnd'; [done|]. split; [|done].
    destruct (filter _ (hashes nd)) as [|h hs] eqn:Hf; [done|].
    assert (Hh : h ∈ filter (λ h, h ∉ dom (blockDir w)) (hashes nd)).
    { rewrite Hf. apply list_elem_of_here. }
    apply list_elem_of_filter in Hh as [Hh1 Hh2].
    exfalso. apply Hh1. apply elem_of_dom. by apply Hblocks.
  - intros hash Hin. apply Hkeep. rewrite referenced_parseAll by done.
    by exists key, file, nd.
Qed.

Lemma filter_ext_in {A} (P1 P2 : A → Prop)
    `{!∀ x, Decision (P1 x), !∀ x, Decision (P2 x)} (l : list A) :
  (∀ x, x ∈ l → (P1 x ↔ P2 x)) → filter P1 l = filter P2 l.
Proof.
  induction l as [|x l IH]; intros Hext; [done|].
  rewrite !filter_cons.
  rewrite IH by (intros y Hy; apply Hext; by right).
  destruct (decide (P1 x)) as [Hx1|Hx1], (decide (P2 x)) as [Hx2|Hx2]; try done.
  - exfalso. apply Hx2, Hext; [by left|done].
  - exfalso. apply Hx1, Hext; [by left|done].
Qed.

(** C8.  Running Clean again on the world the first run left deletes
    nothing, leaves the node files alone and returns what the first run
    returned. *)
Theorem Clean_idempotent (st : BlockStorage) (w : World) :
  blockDir (Clean st (Clean st w).2).2 = blockDir (Clean st w).2 ∧
  nodeDir (Clean st (Clean st w).2).2 = nodeDir (Clean st w).2 ∧
  (Clean st (Clean st w).2).1 = (Clean st w).1.
Proof.
  destruct (lockClosed w) eqn:Hopen.
  { assert (Hc : Clean st w = (Err ErrClosed, w)).
    { unfold Clean. by rewrite Hopen. }
    rewrite Hc. simpl. by rewrite Hc. }
  destruct (Clean_spec st w Hopen) as (w1 & Hn1 & _ & Hl1 & Hres1).
  assert (Hopen1 : lockClosed w1 = false) by congruence.
  destruct (Clean_spec st w1 Hopen1) as (w2 & Hn2 & _ & _ & Hres2).
  rewrite Hn1 in Hres2.
  destruct (parseAll (nodeDir w)) as [nodes e]. simpl in Hres1, Hres2.
  destruct e as [e|].
  - destruct Hres1 as [Hc1 Hb1], Hres2 as [Hc2 Hb2].
    rewrite Hc1. simpl. rewrite Hc2. simpl. split_and!; congruence.
  - destruct Hres1 as (Hc1 & Hkeep1 & Hdel1), Hres2 as (Hc2 & Hkeep2 & Hdel2).
    rewrite Hc1. simpl. rewrite Hc2. simpl. split_and!.
    + apply map_eq. intros b. destruct (referenced_dec nodes b) as [Hr|Hr].
      * by apply Hkeep2.
      * by rewrite Hdel2, Hdel1.
    + congruence.
    + f_equal. apply map_eq. intros k. rewrite !lookup_omap.
      destruct (nodes !! k) as [nd|] eqn:Hnd; [|done]. simpl.
      unfold residual. rewrite (filter_ext_in (λ h, h ∉ dom (blockDir w1))
                                             (λ h, h ∉ dom (blockDir w))); [done|].
      intros h Hh. rewrite !elem_of_dom, Hkeep1; [done|]. by exists k, nd.
Qed.

End Clean_claims.

(** ** Keys *)

Lemma has_prefix_app (p s : string) : has_prefix (p +:+ s) p = true.
Proof.
  unfold has_prefix. apply bool_decide_eq_true.
  induction p as [|c p IH]; simpl.
  - by destruct s.
  - by rewrite <- IH.
Qed.

Lemma strings_Contains_app (a substr b : string) :
  strings_Contains (a +:+ substr +:+ b) substr = true.
Proof.
  induction a as [|c a IH].
  - change ("" +:+ substr +:+ b) with (substr +:+ b).
    pose proof (has_prefix_app substr b) as Hp.
    destruct (substr +:+ b); simpl; by rewrite Hp.
  - simpl. rewrite IH. apply orb_true_r.
Qed.

Lemma nodePathForKey_invalid (key : string) :
  (∃ a b, key = a +:+ "/" +:+ b) ∨ key = "." ∨ key = ".." →
  nodePathForKey key = Err ErrInvalidKey.
Proof.
  unfold nodePathForKey. intros [(a & b & ->)|[->| ->]]; [|done..].
  by rewrite strings_Contains_app.
Qed.

Lemma nodePathForKey_Ok (key : string) (p : path) :
  nodePathForKey key = Ok p → p = NodePath key.
Proof. unfold nodePathForKey. case_match; [done|]. by intros [= <-]. Qed.

Section Key_claims.
Context `{HashEncoder}.

(** C9.  A key with a path separator in it, and the keys "." and "..", are
    refused with ErrInvalidKey by WriteStream and by ReadStream, whatever the
    state of the store; the world comes back as it was, trace of file-system
    calls included. *)
Theorem invalid_key_rejected (st : BlockStorage) (key : string) (r : list byte)
    (w : World) :
  (∃ a b, key = a +:+ "/" +:+ b) ∨ key = "." ∨ key = ".." →
  WriteStream st key r w = (Err ErrInvalidKey, w) ∧
  ReadStream st key w = (Err ErrInvalidKey, w).
Proof.
  intros Hkey. apply nodePathForKey_invalid in Hkey.
  unfold WriteStream, ReadStream, bind, lift. by rewrite Hkey.
Qed.

Lemma absent_key_results (st : BlockStorage) (key : string) (w : World) :
  nodePathForKey key = Ok (NodePath key) →
  lockClosed w = false →
  nodeDir w !! key = None →
  (ReadStream st key w).1 = Err ErrNotFound ∧
  (Remove st key w).1 = Err ErrNotFound ∧
  (Stat st key w).1 = Ok false.
Proof.
  intros Hkey Hopen Hnone.
  unfold ReadStream, Remove, Stat, bind, lift, lock_Closed, map_err.
  rewrite Hkey, Hopen. simpl. unfold open, unlink, stat. simpl.
  rewrite Hnone. simpl. by split_and!.
Qed.

(** C6, as the code has it.  For a key that passes the key check, on an open
    store without a node file for it: ReadStream and Remove fail with
    ErrNotFound, and Stat answers false without an error. *)
Theorem absent_key (st : BlockStorage) (key : string) (w : World) :
  nodePathForKey key = Ok (NodePath key) →
  lockClosed w = false →
  nodeDir w !! key = None →
  (ReadStream st key w).1 = Err ErrNotFound ∧
  (Remove st key w).1 = Err ErrNotFound ∧
  (Stat st key w).1 = Ok false.
Proof. apply absent_key_results. Qed.

End Key_claims.

(** C6 as stated fails for Stat: on the empty open store the key "k" is
    accepted and has no node file, and Stat returns (false, nil). *)
Lemma Stat_absent_is_not_an_error :
  nodePathForKey "k" = Ok (NodePath "k") ∧
  lockClosed emptyWorld = false ∧
  nodeDir emptyWorld !! "k" = None ∧
  (Stat (OpenBlock None) "k" emptyWorld).1 = Ok false ∧
  (Stat (OpenBlock None) "k" emptyWorld).1 ≠ Err ErrNotFound.
Proof. by vm_compute. Qed.
(** ** Writing *)

Lemma getBlockConfig_BlockSize (cfg : option BlockConfig) :
  (1 ≤ BlockSize (getBlockConfig cfg))%Z.
Proof.
  unfold getBlockConfig. simpl.
  destruct (BlockSize (default DefaultBlockConfig cfg) <? 1)%Z eqn:Hlt; simpl.
  - done.
  - by apply Z.ltb_ge in Hlt.
Qed.

Lemma Buffer_Grow_length (buf : Buffer) (sz : nat) :
  length (B (Buffer_Grow buf sz)) = length (B buf) + sz.
Proof.
  unfold Buffer_Grow. case_decide; simpl; rewrite length_app.
  - rewrite length_take. lia.
  - by rewrite length_replicate.
Qed.

Section Write_claims.
Context `{HashEncoder}.

(** The chunk loop on an exhausted stream: one buffer is taken from the pool,
    the read reports EOF and the node is returned as it is. *)
Lemma chunkLoop_eof (fuel : nat) (st : BlockStorage) (nd : node) (w : World) :
  (1 ≤ BlockSize (config st))%Z →
  ∃ w', chunkLoop (S fuel) st [] nd w = (Ok nd, w') ∧ same_files w w'.
Proof.
  intros Hbs. simpl. unfold bind.
  pose proof (bufpool_Get_same_files w) as Hsame.
  destruct (bufpool_Get w) as [[buf|e] w'] eqn:Hget.
  - simpl in Hsame. exists w'. split; [|done].
    pose proof (Buffer_Grow_length buf (Z.to_nat (BlockSize (config st)))) as Hlen.
    unfold io_ReadFull. simpl.
    destruct (B (Buffer_Grow buf (Z.to_nat (BlockSize (config st))))) as [|x l].
    + simpl in Hlen. lia.
    + done.
  - unfold bufpool_Get in Hget. by destruct (bufpool w).
Qed.

(** An empty input on an open store, past the existence check: the chunk
    loop ends at its first read and the write fails before the node file is
    opened. *)
Lemma WriteStream_empty_input (cfg : option BlockConfig) (key : string) (w : World) :
  nodePathForKey key = Ok (NodePath key) →
  lockClosed w = false →
  key ∉ cwd w ∨ Overwrite (config (OpenBlock cfg)) = true →
  ∃ w',
    WriteStream (OpenBlock cfg) key [] w = (Err errNoHashesWritten, w') ∧
    same_files w w'.
Proof.
  intros Hkey Hopen Hgate.
  assert (Hok : bool_decide (key ∈ cwd w) && negb (Overwrite (getBlockConfig cfg)) = false).
  { destruct Hgate as [Hn|Ho].
    - by rewrite bool_decide_eq_false_2.
    - change (config (OpenBlock cfg)) with (getBlockConfig cfg) in Ho.
      rewrite Ho. apply andb_false_r. }
  destruct (chunkLoop_eof 0 (OpenBlock cfg) (Node [])
              (sys (SysMkdirAll BlockDir)
                 (sys (SysMkdirAll NodeDir) (sys (SysStat (RelPath key)) w))))
    as (w' & Hloop & Hsame).
  { apply getBlockConfig_BlockSize. }
  exists w'. split; [|done].
  unfold WriteStream, bind, lift, lock_Closed. rewrite Hkey, Hopen.
  unfold stat, os_MkdirAll.
  change (exists_at (RelPath key) w) with (bool_decide (key ∈ cwd w)).
  change (config (OpenBlock cfg)) with (getBlockConfig cfg).
  rewrite Hok.
  change (length (@nil byte)) with 0. by rewrite Hloop.
Qed.

(** On an open store, for an accepted key whose write gets past the
    existence check, an empty input fails with errNoHashesWritten and both
    directories are as before; in particular a key without a node file still
    has none and reading it fails with ErrNotFound. *)
Lemma empty_write_no_data (cfg : option BlockConfig) (key : string) (w : World) :
  nodePathForKey key = Ok (NodePath key) →
  lockClosed w = false →
  key ∉ cwd w ∨ Overwrite (config (OpenBlock cfg)) = true →
  ∃ w',
    WriteStream (OpenBlock cfg) key [] w = (Err errNoHashesWritten, w') ∧
    nodeDir w' = nodeDir w ∧ blockDir w' = blockDir w ∧
    (nodeDir w !! key = None →
       nodeDir w' !! key = None ∧
       (ReadStream (OpenBlock cfg) key w').1 = Err ErrNotFound).
Proof.
  intros Hkey Hopen Hgate.
  destruct (WriteStream_empty_input cfg key w Hkey Hopen Hgate)
    as (w' & Hwrite & Hn & Hb & Hc & Hl).
  exists w'. split_and!; try done.
  intros Hnone. rewrite Hn. split; [done|].
  apply absent_key_results; congruence.
Qed.

(** C3, where the code departs from it.  Overwrite is off and the key has a
    node file; no file of that name lies in the working directory, which is
    where the existence check of WriteStream looks.  A second write with an
    empty input is then not refused with ErrAlreadyExists: it runs the chunk
    loop and fails with errNoHashesWritten.  The node file stays as it is. *)
Theorem second_write_not_refused (cfg : option BlockConfig) (key : string)
    (file : list byte) (w : World) :
  nodePathForKey key = Ok (NodePath key) →
  lockClosed w = false →
  Overwrite (config (OpenBlock cfg)) = false →
  nodeDir w !! key = Some file →
  key ∉ cwd w →
  ∃ w',
    WriteStream (OpenBlock cfg) key [] w = (Err errNoHashesWritten, w') ∧
    errNoHashesWritten ≠ ErrAlreadyExists ∧
    nodeDir w' = nodeDir w ∧ blockDir w' = blockDir w.
Proof.
  intros Hkey Hopen Hover Hfile Hcwd.
  destruct (WriteStream_empty_input cfg key w Hkey Hopen (or_introl Hcwd))
    as (w' & Hwrite & Hn & Hb & _).
  by exists w'.
Qed.

End Write_claims.

Lemma nextBuffer_length w sz : length (nextBuffer w sz) = sz.
Proof.
  unfold nextBuffer. destruct (bufpool w) as [|arr rest].
  - apply length_replicate.
  - case_decide; [rewrite length_take; lia|apply length_replicate].
Qed.

Lemma bufpool_Get_Grow (w : World) (sz : nat) :
  ∃ buf w', bufpool_Get w = (Ok buf, w') ∧ same_files w w' ∧ trace w' = trace w ∧
            B (Buffer_Grow buf sz) = nextBuffer w sz.
Proof.
  unfold bufpool_Get, nextBuffer, Buffer_Grow.
  destruct (bufpool w) as [|arr rest]; simpl.
  - eexists _, w. split; [done|]. split; [done|]. split; [done|].
    case_decide as Hsz; simpl; [|done].
    simpl in Hsz. assert (sz = 0) as -> by lia. done.
  - eexists _, _. split; [done|]. split; [done|]. split; [done|].
    simpl. by case_decide.
Qed.

Section Chunk_claims.
Context `{HashEncoder}.

(** The chunk loop on a stream shorter than the block size. *)
Lemma chunkLoop_short_chunk (fuel : nat) (st : BlockStorage) (r stored : list byte)
    (w : World) :
  let bs := Z.to_nat (BlockSize (config st)) in
  let sum := EncodeSum (r ++ drop (length r) (nextBuffer w bs)) in
  0 < length r < bs →
  blockDir w !! sum = None →
  Writer (compression st) r = Ok stored →
  ∃ w',
    chunkLoop (S fuel) st r (Node []) w = (Ok (Node [sum]), w') ∧
    blockDir w' = <[sum := stored]> (blockDir w) ∧
    nodeDir w' = nodeDir w ∧ cwd w' = cwd w ∧ lockClosed w' = lockClosed w.
Proof.
  intros bs sum Hlen Hnone Hwr.
  destruct (bufpool_Get_Grow w bs) as (buf & w1 & Hget & (Hn1 & Hb1 & Hc1 & Hl1) & Ht1 & HB).
  cbn [chunkLoop]. unfold bind at 1. rewrite Hget.
  fold bs. rewrite HB. unfold io_ReadFull.
  rewrite nextBuffer_length.
  rewrite (Nat.min_l (length r) bs) by lia.
  rewrite decide_False by lia. rewrite decide_False by lia.
  rewrite take_ge by lia. fold sum. cbn [hashes app].
  unfold bind at 1. unfold statBlock, stat, blockPathForKey.
  cbn [exists_at]. rewrite Hb1.
  rewrite bool_decide_eq_false_2 by (rewrite Hnone; by intros [? ?]).
  unfold bind at 1. unfold writeBlock, blockPathForKey, open.
  cbn [file_at sys blockDir defaultFileRWFlags O_CREAT O_EXCL O_TRUNC].
  rewrite Hb1, Hnone.
  rewrite take_app_length. rewrite Hwr.
  unfold file_Write, put_file. cbn [file_at blockDir].
  rewrite lookup_insert_eq.
  rewrite length_app, length_drop, nextBuffer_length.
  replace (length r <? length r + (bs - length r)) with true
    by (symmetry; apply Nat.ltb_lt; lia).
  eexists. split; [reflexivity|]. cbn. split; [|done].
  by rewrite insert_insert_eq, drop_nil, app_nil_r, Hb1.
Qed.

(** C2, where the code departs from it.  A stream shorter than the block
    size is read into a pooled buffer of the full block size; the hash
    appended to the node and used as the name of the block file is computed
    over that whole buffer, the chunk followed by whatever the buffer held
    behind it, which is never the chunk itself, while the block file receives
    the chunk alone. *)
Theorem short_chunk_hash_covers_buffer (st : BlockStorage) (r stored : list byte)
    (w : World) :
  let bs := Z.to_nat (BlockSize (config st)) in
  let sum := EncodeSum (r ++ drop (length r) (nextBuffer w bs)) in
  0 < length r < bs →
  blockDir w !! sum = None →
  Writer (compression st) r = Ok stored →
  r ++ drop (length r) (nextBuffer w bs) ≠ r ∧
  ∃ w',
    chunkLoop (S (length r)) st r (Node []) w = (Ok (Node [sum]), w') ∧
    blockDir w' = <[sum := stored]> (blockDir w) ∧
    nodeDir w' = nodeDir w.
Proof.
  intros bs sum Hlen Hnone Hwr. split.
  { intros Heq. apply (f_equal length) in Heq.
    rewrite length_app, length_drop, nextBuffer_length in Heq. lia. }
  destruct (chunkLoop_short_chunk (length r) st r stored w Hlen Hnone Hwr)
    as (w' & Hloop & Hb & Hn & _).
  by exists w'.
Qed.

End Chunk_claims.

(** ** The node codec *)

Lemma bytes_IndexByte_ge (l : list byte) (c : byte) : (-1 ≤ bytes_IndexByte l c)%Z.
Proof.
  induction l as [|x l IH]; simpl; [done|].
  case_decide; [done|]. destruct (bytes_IndexByte l c =? -1)%Z; lia.
Qed.

Lemma bytes_IndexByte_none (l : list byte) (c : byte) :
  bytes_IndexByte l c = (-1)%Z ↔ c ∉ l.
Proof.
  induction l as [|x l IH]; simpl.
  - split; [intros _; apply not_elem_of_nil|done].
  - rewrite not_elem_of_cons. case_decide as Hx.
    + split; [done|]. intros [Hne _]. by subst.
    + pose proof (bytes_IndexByte_ge l c).
      destruct (bytes_IndexByte l c =? -1)%Z eqn:Hi.
      * apply Z.eqb_eq in Hi. split; [|done]. intros _. split; [by intros ->|].
        by apply IH.
      * apply Z.eqb_neq in Hi. split; [lia|]. intros [_ Hn]. by apply IH in Hn.
Qed.

Lemma bytes_IndexByte_found (l : list byte) (c : byte) :
  bytes_IndexByte l c ≠ (-1)%Z →
  ∃ pre post, l = pre ++ (c :: post) ∧ (c ∉ pre) ∧
              bytes_IndexByte l c = Z.of_nat (length pre).
Proof.
  induction l as [|x l IH]; simpl; [done|].
  case_decide as Hx.
  - intros _. subst. exists [], l. split; [done|]. split; [apply not_elem_of_nil|done].
  - destruct (bytes_IndexByte l c =? -1)%Z eqn:Hi; [done|].
    apply Z.eqb_neq in Hi. intros _.
    destruct (IH Hi) as (pre & post & -> & Hpre & Hidx).
    exists (x :: pre), post. split; [done|]. split.
    + apply not_elem_of_cons. split; [by intros ->|done].
    + rewrite Hidx. simpl. lia.
Qed.

(** Two ways to cut a list at its first [c] agree. *)
Lemma first_sep_unique {A} (c : A) (a b x y : list A) :
  c ∉ a → c ∉ b → a ++ c :: x = b ++ c :: y → a = b ∧ x = y.
Proof.
  revert b. induction a as [|h a IH]; intros b Ha Hb Heq.
  - destruct b as [|h' b]; simpl in Heq.
    + by simplify_eq.
    + simplify_eq. exfalso. apply Hb. by left.
  - destruct b as [|h' b]; simpl in Heq.
    + simplify_eq. exfalso. apply Ha. by left.
    + simplify_eq. apply not_elem_of_cons in Ha as [_ Ha].
      apply not_elem_of_cons in Hb as [_ Hb].
      destruct (IH b Ha Hb) as [-> ->]; done.
Qed.

Lemma sep_free_prefix {A} (c : A) (a b x y : list A) :
  c ∉ a → a ++ x = b ++ c :: y → length a ≤ length b.
Proof.
  revert b. induction a as [|h a IH]; intros b Ha Heq; simpl; [lia|].
  apply not_elem_of_cons in Ha as [Hne Ha].
  destruct b as [|h' b]; simpl in Heq.
  - by simplify_eq.
  - simplify_eq. simpl. apply le_n_S. by eapply IH.
Qed.

Section Codec.
Context `{HashEncoder}.

Lemma nodeBytes_cons (hash : string) (hs : list string) :
  nodeBytes (Node (hash :: hs)) =
    list_byte_of_string hash ++ hashSeparator :: nodeBytes (Node hs).
Proof. unfold nodeBytes. simpl. by rewrite <- app_assoc. Qed.

(** One [Write] call in the middle of a well-formed node file: [buf] holds
    the part of the current hash seen so far, [b] is the piece written now and
    [rest] what later calls will bring. *)
Lemma nodeWriter_loop_wellformed (fuel : nat) :
  ∀ (hs done : list string) (buf b rest : list byte) (n : nat),
    length b - n < fuel → n ≤ length b →
    Forall validHash hs →
    hashSeparator ∉ buf →
    buf ++ drop n b ++ rest = nodeBytes (Node hs) →
    ∃ hs1 hs2 buf',
      hs = hs1 ++ hs2 ∧
      nodeWriter.loop fuel (nodeWriter.mk (Node done) buf) b n =
        ((length b, None), nodeWriter.mk (Node (done ++ hs1)) buf') ∧
      (hashSeparator ∉ buf') ∧
      buf' ++ rest = nodeBytes (Node hs2).
Proof.
  induction fuel as [|fuel IH]; intros hs done buf b rest n Hfuel Hn Hvalid Hbuf Heq;
    [lia|].
  cbn [nodeWriter.loop nodeWriter.buf nodeWriter.node_ hashes].
  destruct (bytes_IndexByte (drop n b) hashSeparator =? -1)%Z eqn:Hidx.
  - apply Z.eqb_eq, bytes_IndexByte_none in Hidx.
    rewrite decide_False.
    + exists [], hs, (buf ++ drop n b). rewrite app_nil_r, <- app_assoc.
      split_and!; try done. rewrite not_elem_of_app. split; assumption.
    + destruct hs as [|hash hs].
      * apply app_eq_nil in Heq as [-> _]. simpl. lia.
      * rewrite nodeBytes_cons in Heq. apply Forall_cons in Hvalid as [[Hlen _] _].
        apply sep_free_prefix in Heq; [|done].
        rewrite length_list_byte_of_string in Heq. lia.
  - apply Z.eqb_neq in Hidx.
    destruct (bytes_IndexByte_found _ _ Hidx) as (pre & post & Hdrop & Hpre & Hi).
    rewrite Hi, Nat2Z.id. rewrite Hdrop in Heq |- *.
    rewrite take_app_length.
    destruct hs as [|hash hs].
    { exfalso. apply (f_equal length) in Heq.
      rewrite !length_app in Heq. simpl in Heq. lia. }
    rewrite nodeBytes_cons in Heq. apply Forall_cons in Hvalid as [[Hlen Hfree] Hvalid].
    assert (Hcut : buf ++ pre = list_byte_of_string hash ∧
                   post ++ rest = nodeBytes (Node hs)).
    { apply (first_sep_unique hashSeparator).
      - rewrite not_elem_of_app. split; assumption.
      - done.
      - rewrite <- Heq. by rewrite <- !app_assoc. }
    destruct Hcut as [Hhash Hrest].
    rewrite decide_False.
    2:{ intros Hne. apply Hne. by rewrite Hhash, length_list_byte_of_string. }
    rewrite Hhash, string_of_list_byte_of_string.
    assert (Hlenb : length (drop n b) = length pre + S (length post)).
    { rewrite Hdrop, length_app. done. }
    rewrite length_drop in Hlenb.
    destruct (IH hs (done ++ [hash]) [] b rest (n + length pre + 1))
      as (hs1 & hs2 & buf' & -> & Hloop & Hbuf' & Hrest');
      [lia|lia|done|apply not_elem_of_nil| |].
    { simpl. rewrite <- Hrest. f_equal.
      replace (n + length pre + 1) with (n + (length pre + 1)) by lia.
      rewrite <- drop_drop, Hdrop.
      replace (length pre + 1) with (length (pre ++ [hashSeparator]))
        by (rewrite length_app; done).
      rewrite (cons_middle hashSeparator pre post), app_assoc.
      by rewrite drop_app_length. }
    exists (hash :: hs1), hs2, buf'. split; [done|].
    rewrite Hloop, <- app_assoc. done.
Qed.

Lemma nodeBytes_sep_free_nil (hs : list string) (buf : list byte) :
  hashSeparator ∉ buf → buf = nodeBytes (Node hs) → hs = [] ∧ buf = [].
Proof.
  intros Hbuf Heq. destruct hs as [|hash hs]; [done|].
  rewrite nodeBytes_cons in Heq. exfalso. apply Hbuf. rewrite Heq.
  apply elem_of_app. right. by left.
Qed.

Lemma copy_to_nodeWriter_wellformed (fuel : nat) :
  ∀ (hs done : list string) (buf file : list byte),
    length file < fuel →
    Forall validHash hs →
    hashSeparator ∉ buf →
    buf ++ file = nodeBytes (Node hs) →
    copy_to_nodeWriter fuel (nodeWriter.mk (Node done) buf) file =
      Ok (nodeWriter.mk (Node (done ++ hs)) []).
Proof.
  induction fuel as [|fuel IH]; intros hs done buf file Hfuel Hvalid Hbuf Heq; [lia|].
  cbn [copy_to_nodeWriter]. destruct file as [|x file].
  - rewrite app_nil_r in Heq.
    destruct (nodeBytes_sep_free_nil hs buf Hbuf Heq) as [-> ->].
    by rewrite app_nil_r.
  - remember (x :: file) as f eqn:Hf.
    destruct (nodeWriter_loop_wellformed (S (length (take copyBufSize f))) hs done buf
                (take copyBufSize f) (drop copyBufSize f) 0)
      as (hs1 & hs2 & buf' & -> & Hloop & Hbuf' & Hrest');
      [lia|lia|done|done| |].
    { by rewrite drop_0, take_drop. }
    unfold nodeWriter.Write. rewrite Hloop.
    apply Forall_app in Hvalid as [_ Hvalid2].
    rewrite (IH hs2 (done ++ hs1) buf' (drop copyBufSize f)); try done.
    + by rewrite <- app_assoc.
    + rewrite length_drop. subst f. cbn [length] in Hfuel |- *.
      assert (0 < copyBufSize) by (unfold copyBufSize; lia). lia.
Qed.

(** A node file made of valid names parses back to the node it was made
    from. *)
Lemma parseNode_nodeBytes (nd : node) :
  Forall validHash (hashes nd) → parseNode (nodeBytes nd) = Ok nd.
Proof.
  intros Hvalid. unfold parseNode, nodeWriter.new. destruct nd as [hs].
  rewrite (copy_to_nodeWriter_wellformed _ hs [] [] (nodeBytes (Node hs)));
    try done; [lia|apply not_elem_of_nil].
Qed.

Lemma validHash_EncodeSum (src : list byte) : validHash (EncodeSum src).
Proof. split; [apply EncodeSum_length|apply EncodeSum_printable]. Qed.

End Codec.

(** ** Writing and reading a value of one short chunk *)

Lemma nodeReader_Read_single (hash : string) (lenb : nat) :
  String.length hash < lenb →
  nodeReader.Read (nodeReader.new (Node [hash])) lenb =
    Some (nodeBytes (Node [hash]), Some io_EOF, nodeReader.mk (Node [hash]) 1 0).
Proof.
  intros Hlen. unfold nodeReader.Read, nodeReader.new. simpl.
  rewrite drop_0, Nat.sub_0_r, length_list_byte_of_string.
  rewrite Nat.min_r by lia.
  rewrite (take_ge (list_byte_of_string hash))
    by (rewrite length_list_byte_of_string; lia).
  rewrite length_list_byte_of_string.
  replace (Z.of_nat (String.length hash) <? Z.of_nat (String.length hash) - 0)%Z
    with false by (symmetry; apply Z.ltb_ge; lia).
  rewrite decide_False by lia.
  unfold nodeBytes. simpl. by rewrite app_nil_r.
Qed.

Section Short_value.
Context `{HashEncoder}.

Lemma WriteStream_short_value (st : BlockStorage) (key : string)
    (r stored : list byte) (w : World) :
  let bs := Z.to_nat (BlockSize (config st)) in
  let sum := EncodeSum (r ++ drop (length r) (nextBuffer w bs)) in
  nodePathForKey key = Ok (NodePath key) →
  lockClosed w = false →
  key ∉ cwd w →
  Overwrite (config st) = false →
  nodeDir w !! key = None →
  0 < length r < bs →
  blockDir w !! sum = None →
  Writer (compression st) r = Ok stored →
  encodedHashLen < copyBufSize →
  ∃ w',
    WriteStream st key r w = (Ok tt, w') ∧
    nodeDir w' = <[key := nodeBytes (Node [sum])]> (nodeDir w) ∧
    blockDir w' = <[sum := stored]> (blockDir w) ∧
    cwd w' = cwd w ∧ lockClosed w' = false.
Proof.
  intros bs sum Hkey Hopen Hcwd Hover Hnone Hlen Hfree Hwr Hsmall.
  set (w3 := sys (SysMkdirAll BlockDir)
               (sys (SysMkdirAll NodeDir) (sys (SysStat (RelPath key)) w))).
  destruct (chunkLoop_short_chunk (length r) st r stored w3)
    as (w4 & Hloop & Hb4 & Hn4 & Hc4 & Hl4); [done|done|done|].
  change (nextBuffer w3 _) with (nextBuffer w bs) in Hloop, Hb4. fold sum in Hloop, Hb4.
  simpl in Hb4, Hn4, Hc4, Hl4.
  unfold WriteStream, bind, lift, lock_Closed. rewrite Hkey, Hopen.
  unfold stat, os_MkdirAll.
  change (exists_at (RelPath key) w) with (bool_decide (key ∈ cwd w)).
  rewrite bool_decide_eq_false_2 by done. cbn [andb]. fold w3. rewrite Hloop.
  cbn [hashes length]. rewrite decide_False by lia. rewrite Hover.
  unfold map_err, open. cbn [file_at sys nodeDir]. rewrite Hn4, Hnone.
  cbn [with_O_EXCL defaultFileRWFlags O_CREAT].
  set (w5 := put_file (NodePath key) [] _).
  pose proof (bufpool_Get_same_files w5) as (Hn6 & Hb6 & Hc6 & Hl6).
  destruct (bufpool_Get w5) as [[buf|e] w6] eqn:Hget.
  2:{ unfold bufpool_Get in Hget. by destruct (bufpool w5). }
  simpl in Hn6, Hb6, Hc6, Hl6.
  cbn [copy_from_nodeReader]. rewrite nodeReader_Read_single
    by (unfold sum; rewrite EncodeSum_length; done).
  cbn [app]. unfold file_Write. cbn [file_at]. rewrite Hn6, lookup_insert_eq.
  eexists. split; [reflexivity|]. cbn [put_file nodeDir blockDir cwd lockClosed].
  rewrite Hn6, Hb6, Hc6, Hl6, Hn4, Hb4, Hc4, Hl4.
  rewrite insert_insert_eq, drop_nil, app_nil_r. done.
Qed.

Lemma ReadStream_wellformed (st : BlockStorage) (key : string) (nd : node) (w : World) :
  nodePathForKey key = Ok (NodePath key) →
  lockClosed w = false →
  nodeDir w !! key = Some (nodeBytes nd) →
  Forall validHash (hashes nd) →
  ∃ w', ReadStream st key w = (Ok (blockReader.mk nd [] 0), w') ∧ same_files w w'.
Proof.
  intros Hkey Hopen Hfile Hvalid.
  unfold ReadStream, bind, lift, lock_Closed, map_err. rewrite Hkey, Hopen.
  unfold open. cbn [file_at sys nodeDir]. rewrite Hfile.
  cbn [defaultFileROFlags O_CREAT O_EXCL O_TRUNC andb].
  set (w1 := sys _ w).
  pose proof (bufpool_Get_same_files w1) as Hsame.
  destruct (bufpool_Get w1) as [[buf|e] w2] eqn:Hget.
  2:{ unfold bufpool_Get in Hget. by destruct (bufpool w1). }
  simpl in Hsame. unfold file_contents. cbn [file_at].
  destruct Hsame as (Hn & Hb & Hc & Hl). rewrite Hn. unfold w1 at 1.
  cbn [sys nodeDir]. rewrite Hfile, parseNode_nodeBytes by done.
  exists w2. split; [done|]. unfold same_files. by rewrite Hn, Hb, Hc, Hl.
Qed.

Lemma readBlock_stored (st : BlockStorage) (hash : string) (data value : list byte)
    (w : World) :
  blockDir w !! hash = Some data →
  Reader (compression st) data = Ok value →
  ∃ w', readBlock st hash w = (Ok value, w') ∧ same_files w w'.
Proof.
  intros Hdata Hrd. unfold readBlock, bind, map_err, lift, blockPathForKey, open.
  cbn [file_at sys blockDir]. rewrite Hdata.
  cbn [defaultFileROFlags O_CREAT O_EXCL O_TRUNC andb].
  unfold file_contents. cbn [file_at sys blockDir]. rewrite Hdata, Hrd.
  eexists. split; [reflexivity|done].
Qed.

(** A value of one block of [n + 1] bytes, pulled with buffers of [n] bytes:
    the first call fills its buffer, the second finds one byte left, skips it
    and reports EOF. *)
Lemma blockReader_pull_one_short (st : BlockStorage) (hash : string)
    (data value : list byte) (n : nat) (w : World) :
  blockDir w !! hash = Some data →
  Reader (compression st) data = Ok value →
  length value = S n →
  0 < n →
  blockReader.pull st (blockReader.mk (Node [hash]) [] 0) [n; n] w =
    (take n value, Some io_EOF).
Proof.
  intros Hdata Hrd Hlen Hn.
  destruct (readBlock_stored st hash data value w Hdata Hrd) as (w' & Hread & _).
  cbn [blockReader.pull]. unfold blockReader.Read at 1.
  cbn [blockReader.prev blockReader.buf blockReader.node_ hashes length].
  replace (Z.of_nat 0 <? Z.of_nat 0 - 1)%Z with false by done.
  cbn [blockReader.loop]. rewrite Hread.
  cbn [length app]. rewrite Nat.sub_0_r, Hlen, Nat.min_l by lia.
  rewrite decide_True by (rewrite length_take; lia).
  unfold blockReader.Read.
  cbn [blockReader.prev blockReader.buf blockReader.node_ hashes].
  replace (Z.of_nat n <? Z.of_nat (length value) - 1)%Z with false
    by (symmetry; apply Z.ltb_ge; lia).
  cbn [blockReader.loop]. by rewrite app_nil_r.
Qed.

End Short_value.

Section Roundtrip.
Context `{HashEncoder}.

(** C1, where the code departs from it.  A value of [n + 1] bytes that fits
    one block is written under a fresh key and read back with buffers of [n]
    bytes: the write succeeds, the stream opens, the first pull returns the
    first [n] bytes and the second reports EOF, so the last byte is never
    delivered. *)
Theorem roundtrip_drops_last_byte (st : BlockStorage) (key : string)
    (value : list byte) (n : nat) (w : World) :
  let bs := Z.to_nat (BlockSize (config st)) in
  nodePathForKey key = Ok (NodePath key) →
  lockClosed w = false →
  key ∉ cwd w →
  Overwrite (config st) = false →
  Compression (config st) = Some NoCompression →
  nodeDir w !! key = None →
  length value = S n → 0 < n → S n < bs →
  blockDir w !! EncodeSum (value ++ drop (length value) (nextBuffer w bs)) = None →
  encodedHashLen < copyBufSize →
  ∃ w1 r w2,
    WriteStream st key value w = (Ok tt, w1) ∧
    ReadStream st key w1 = (Ok r, w2) ∧
    blockReader.pull st r [n; n] w2 = (take n value, Some io_EOF) ∧
    take n value ≠ value.
Proof.
  intros bs Hkey Hopen Hcwd Hover Hcomp Hnone Hlen Hn Hbs Hfree Hsmall.
  assert (Hcodec : compression st = NoCompression).
  { unfold compression. by rewrite Hcomp. }
  destruct (WriteStream_short_value st key value value w)
    as (w1 & Hwrite & Hn1 & Hb1 & Hc1 & Hl1); try done.
  { lia. }
  { by rewrite Hcodec. }
  fold bs in Hn1, Hb1.
  set (sum := EncodeSum (value ++ drop (length value) (nextBuffer w bs))) in *.
  destruct (ReadStream_wellformed st key (Node [sum]) w1)
    as (w2 & Hread & Hn2 & Hb2 & Hc2 & Hl2); try done.
  { by rewrite Hn1, lookup_insert_eq. }
  { apply Forall_cons. split; [apply validHash_EncodeSum|apply Forall_nil_2]. }
  exists w1, (blockReader.mk (Node [sum]) [] 0), w2. split_and!; try done.
  - apply (blockReader_pull_one_short st sum value value n w2); try done.
    + by rewrite Hb2, Hb1, lookup_insert_eq.
    + by rewrite Hcodec.
  - intros Heq. apply (f_equal length) in Heq. rewrite length_take in Heq. lia.
Qed.

End Roundtrip.

Lemma roundtrip_drops_last_byte_witness :
  ∃ w1 r w2,
    WriteStream (OpenBlock None) "k" abc emptyWorld = (Ok tt, w1) ∧
    ReadStream (OpenBlock None) "k" w1 = (Ok r, w2) ∧
    blockReader.pull (OpenBlock None) r [2; 2] w2 = (take 2 abc, Some io_EOF) ∧
    take 2 abc ≠ abc.
Proof.
  apply (roundtrip_drops_last_byte (OpenBlock None) "k" abc 2 emptyWorld);
    try reflexivity.
  - apply not_elem_of_empty.
  - lia.
  - simpl. lia.
  - unfold copyBufSize. simpl. lia.
Defined.

(** ** The serializer at a buffer as long as a hash *)

Section Serializer.

Variable hash : string.
Hypothesis Hlong : 2 ≤ String.length hash.

Lemma nodeReader_Read_exact :
  nodeReader.Read (nodeReader.mk (Node [hash]) 0 0) (String.length hash) =
    Some (list_byte_of_string hash, None, nodeReader.mk (Node [hash]) 0 (-1)).
Proof.
  unfold nodeReader.Read. simpl.
  rewrite drop_0, Nat.sub_0_r, length_list_byte_of_string, Nat.min_id.
  rewrite (take_ge (list_byte_of_string hash))
    by (rewrite length_list_byte_of_string; done).
  Zltb_false.
  rewrite decide_True by apply length_list_byte_of_string. done.
Qed.

Lemma nodeReader_Read_pending :
  nodeReader.Read (nodeReader.mk (Node [hash]) 0 (-1)) (String.length hash) =
    Some (hashSeparator :: take (String.length hash - 1) (list_byte_of_string hash),
          None,
          nodeReader.mk (Node [hash]) 0 (Z.of_nat (String.length hash - 1))).
Proof.
  unfold nodeReader.Read. simpl.
  destruct (String.length hash) as [|l] eqn:HL; [lia|].
  simpl. rewrite drop_0, length_list_byte_of_string.
  rewrite HL, Nat.sub_0_r, Nat.min_l by lia.
  Zltb_true. done.
Qed.

Lemma nodeReader_Read_tail :
  nodeReader.Read
    (nodeReader.mk (Node [hash]) 0 (Z.of_nat (String.length hash - 1)))
    (String.length hash) =
    Some (drop (String.length hash - 1) (list_byte_of_string hash) ++ [hashSeparator],
          Some io_EOF, nodeReader.mk (Node [hash]) 1 0).
Proof.
  unfold nodeReader.Read.
  rewrite decide_False by (cbn [nodeReader.last]; lia). simpl.
  rewrite Nat2Z.id, Nat.sub_0_r, length_drop, length_list_byte_of_string.
  replace (String.length hash `min` (String.length hash - (String.length hash - 1)))
    with 1 by lia.
  rewrite (take_ge (drop _ _))
    by (rewrite length_drop, length_list_byte_of_string; lia).
  Zltb_false.
  rewrite decide_False; [done|].
  rewrite length_drop, length_list_byte_of_string. lia.
Qed.

End Serializer.

(** A node of one hash read through buffers exactly as long as the hash:
    the first call fills the buffer with the hash, the second emits the
    missed separator and then starts the same hash again, and the stream
    ends having carried the hash twice. *)
Lemma nodeReader_repeats_hash (hash : string) :
  2 ≤ String.length hash →
  nodeReader.pull (nodeReader.new (Node [hash]))
    (replicate 3 (String.length hash)) =
    Some (nodeBytes (Node [hash; hash]), Some io_EOF) ∧
  nodeBytes (Node [hash; hash]) ≠ nodeBytes (Node [hash]).
Proof.
  intros Hlong. split.
  - unfold nodeReader.new. cbn [replicate nodeReader.pull].
    rewrite nodeReader_Read_exact by done.
    rewrite nodeReader_Read_pending by done.
    rewrite nodeReader_Read_tail by done.
    unfold nodeBytes. cbn [flat_map hashes].
    rewrite app_nil_r. rewrite <- !app_assoc. f_equal. simpl. f_equal.
    rewrite app_assoc, take_drop. done.
  - intros Heq. apply (f_equal length) in Heq. unfold nodeBytes in Heq.
    cbn [flat_map hashes] in Heq. rewrite !length_app in Heq. simpl in Heq. lia.
Qed.

(** ** The claims at sample stores *)

Lemma sampleWorld_parses (key : string) (file : list byte) :
  nodeDir sampleWorld !! key = Some file → is_Some (nodeOf file).
Proof.
  intros Hk. unfold sampleWorld in Hk. cbn [nodeDir] in Hk.
  apply lookup_singleton_Some in Hk as [_ <-].
  eexists. vm_compute. reflexivity.
Qed.

Lemma twiceWorld_parses (key : string) (file : list byte) :
  nodeDir twiceWorld !! key = Some file → is_Some (nodeOf file).
Proof.
  intros Hk. unfold twiceWorld in Hk. cbn [nodeDir] in Hk.
  apply lookup_singleton_Some in Hk as [_ <-].
  eexists. vm_compute. reflexivity.
Qed.

Lemma Clean_collects_garbage_witness :
  ∃ res w',
    Clean (OpenBlock None) sampleWorld = (res, w') ∧
    (∀ name, ¬ listed sampleWorld name → blockDir w' !! name = None) ∧
    (∀ name, listed sampleWorld name →
             blockDir w' !! name = blockDir sampleWorld !! name) ∧
    ((∃ key, dangling sampleWorld key) →
       ∃ nodeKeys, res = Err (ErrCorruptedNodes nodeKeys) ∧
                   ∀ key, dangling sampleWorld key → key ∈ nodeKeys).
Proof.
  apply (proj2 (Clean_collects_garbage (OpenBlock None) sampleWorld)).
  - reflexivity.
  - exact sampleWorld_parses.
Defined.

Lemma Clean_duplicate_references_witness :
  (∀ hash, hash ∉ hashes (removeHash (Node [hashA; hashA]) hash).1) ∧
  ∃ res w',
    Clean (OpenBlock None) twiceWorld = (res, w') ∧
    (∀ nodeKeys, res = Err (ErrCorruptedNodes nodeKeys) → "d" ∉ nodeKeys) ∧
    (∀ hash, hash ∈ [hashA; hashA] →
             blockDir w' !! hash = blockDir twiceWorld !! hash).
Proof.
  apply (Clean_duplicate_references (OpenBlock None) twiceWorld "d"
           (nodeBytes (Node [hashA; hashA])) (Node [hashA; hashA])).
  - reflexivity.
  - exact twiceWorld_parses.
  - reflexivity.
  - vm_compute. reflexivity.
  - discriminate.
  - intros hash Hin. simpl in Hin.
    apply elem_of_cons in Hin as [->|Hin];
      [|apply elem_of_cons in Hin as [->|Hin]; [|by apply elem_of_nil in Hin]];
      by eexists.
Defined.

Lemma invalid_key_rejected_witness :
  WriteStream (OpenBlock None) "a/b" abc emptyWorld = (Err ErrInvalidKey, emptyWorld) ∧
  ReadStream (OpenBlock None) "a/b" emptyWorld = (Err ErrInvalidKey, emptyWorld).
Proof.
  apply (invalid_key_rejected (OpenBlock None) "a/b" abc emptyWorld).
  left. by exists "a", "b".
Defined.

Lemma absent_key_witness :
  (ReadStream (OpenBlock None) "k" emptyWorld).1 = Err ErrNotFound ∧
  (Remove (OpenBlock None) "k" emptyWorld).1 = Err ErrNotFound ∧
  (Stat (OpenBlock None) "k" emptyWorld).1 = Ok false.
Proof.
  apply (absent_key (OpenBlock None) "k" emptyWorld); reflexivity.
Defined.


Lemma second_write_not_refused_witness :
  ∃ w',
    WriteStream (OpenBlock None) "d" [] twiceWorld = (Err errNoHashesWritten, w') ∧
    errNoHashesWritten ≠ ErrAlreadyExists ∧
    nodeDir w' = nodeDir twiceWorld ∧ blockDir w' = blockDir twiceWorld.
Proof.
  apply (second_write_not_refused None "d" (nodeBytes (Node [hashA; hashA])) twiceWorld).
  - reflexivity.
  - reflexivity.
  - reflexivity.
  - reflexivity.
  - apply not_elem_of_empty.
Defined.

Lemma short_chunk_hash_covers_buffer_witness :
  let bs := Z.to_nat (BlockSize (config (OpenBlock None))) in
  let sum := EncodeSum (abc ++ drop (length abc) (nextBuffer emptyWorld bs)) in
  abc ++ drop (length abc) (nextBuffer emptyWorld bs) ≠ abc ∧
  ∃ w',
    chunkLoop (S (length abc)) (OpenBlock None) abc (Node []) emptyWorld =
      (Ok (Node [sum]), w') ∧
    blockDir w' = <[sum := abc]> (blockDir emptyWorld) ∧
    nodeDir w' = nodeDir emptyWorld.
Proof.
  apply (short_chunk_hash_covers_buffer (OpenBlock None) abc abc emptyWorld).
  - simpl. lia.
  - apply lookup_empty.
  - reflexivity.
Defined.

(** * Further properties of the store *)

Lemma nodeWriter_Write_eq `{HashEncoder} (w : nodeWriter.t) (b : list byte) :
  nodeWriter.Write w b = nodeWriter.loop (S (length b)) w b 0.
Proof. reflexivity. Qed.

(** ** Clean, exactly *)

Section Clean_exact.
Context `{HashEncoder}.

Lemma residual_is_Some (seen : gset string) (nd : node) :
  is_Some (residual seen nd) ↔
  hashes nd = [] ∨ ∃ hash, hash ∈ hashes nd ∧ hash ∉ seen.
Proof.
  unfold residual. split.
  - case_decide as Hd; [by intros [? ?]|]. intros _.
    destruct (hashes nd) as [|h hs] eqn:Hhs; [by left|right].
    destruct (filter (λ h0, h0 ∉ seen) (h :: hs)) as [|x xs] eqn:Hf.
    + exfalso. apply Hd. by split.
    + exists x.
      assert (Hx : x ∈ filter (λ h0, h0 ∉ seen) (h :: hs)) by (rewrite Hf; by left).
      apply list_elem_of_filter in Hx as [? ?]. by split.
  - intros [Hnil|(hash & Hin & Hseen)].
    + rewrite decide_False; [done|]. by intros [_ ?].
    + rewrite decide_False; [done|]. intros [Hnil _].
      assert (Hx : hash ∈ filter (λ h, h ∉ seen) (hashes nd)).
      { by apply list_elem_of_filter. }
      rewrite Hnil in Hx. by apply elem_of_nil in Hx.
Qed.

Lemma unsatisfied_residual (w : World) (key : string) :
  (∀ key file, nodeDir w !! key = Some file → is_Some (nodeOf file)) →
  is_Some (omap (residual (dom (blockDir w))) (parseAll (nodeDir w)).1 !! key) ↔
  unsatisfied w key.
Proof.
  intros Hok. destruct (parseAll_ok (nodeDir w) Hok) as [_ Hl].
  rewrite lookup_omap, Hl. split.
  - destruct (nodeDir w !! key) as [file|] eqn:Hfile; [|by intros [? ?]]. simpl.
    destruct (nodeOf file) as [nd|] eqn:Hnd; [|by intros [? ?]]. simpl.
    rewrite residual_is_Some. intros Hres. exists file, nd. split_and!; try done.
    destruct Hres as [?|(hash & Hin & Hmiss)]; [by left|right].
    exists hash. split; [done|]. by apply not_elem_of_dom.
  - intros (file & nd & Hfile & Hnd & Hbad). rewrite Hfile. simpl. rewrite Hnd. simpl.
    apply residual_is_Some. destruct Hbad as [?|(hash & Hin & Hmiss)]; [by left|right].
    exists hash. split; [done|]. by apply not_elem_of_dom.
Qed.

(** The keys Clean reports are exactly those whose node lists no hash or a
    hash without a block file, each once; with no such key Clean returns nil. *)
Theorem Clean_reports_exactly (st : BlockStorage) (w : World) :
  lockClosed w = false →
  (∀ key file, nodeDir w !! key = Some file → is_Some (nodeOf file)) →
  ((∀ key, ¬ unsatisfied w key) → (Clean st w).1 = Ok tt) ∧
  ((∃ key, unsatisfied w key) →
     ∃ nodeKeys,
       (Clean st w).1 = Err (ErrCorruptedNodes nodeKeys) ∧
       NoDup nodeKeys ∧
       ∀ key, key ∈ nodeKeys ↔ unsatisfied w key).
Proof.
  intros Hopen Hok.
  destruct (Clean_spec st w Hopen) as (w' & _ & _ & _ & Hres).
  destruct (parseAll_ok (nodeDir w) Hok) as [He _].
  rewrite He in Hres. destruct Hres as (-> & _ & _). simpl.
  set (rest := omap (residual (dom (blockDir w))) (parseAll (nodeDir w)).1).
  split.
  - intros Hnone. unfold cleanResult. rewrite decide_False; [done|].
    assert (rest = ∅) as ->; [|by rewrite map_size_empty; lia].
    apply map_empty. intros key. apply eq_None_not_Some.
    intros Hsome. apply (Hnone key). by apply unsatisfied_residual.
  - intros [key Hkey]. apply unsatisfied_residual in Hkey; [|done].
    destruct (cleanResult_keys rest key Hkey) as (nodeKeys & Hr & Hkeys).
    exists nodeKeys. split; [done|]. split.
    + unfold cleanResult in Hr. case_decide; [|done]. injection Hr as <-.
      apply NoDup_fst_map_to_list.
    + intros key'. rewrite Hkeys. by apply unsatisfied_residual.
Qed.

End Clean_exact.
(** ** Node files that do not parse *)

Section Parse_errors.
Context `{HashEncoder}.

(** With the fuel [Write] gives it, the loop of the parser ends by itself:
    the only error it reports is the invalid-node one. *)
Lemma nodeWriter_loop_error (fuel : nat) :
  ∀ (w : nodeWriter.t) (b : list byte) (n k : nat) (e : error) (w' : nodeWriter.t),
    length b - n < fuel → n ≤ length b →
    nodeWriter.loop fuel w b n = ((k, Some e), w') →
    e = errInvalidNode.
Proof.
  induction fuel as [|fuel IH]; intros w b n k e w' Hfuel Hn Hloop; [lia|].
  cbn [nodeWriter.loop] in Hloop.
  destruct (bytes_IndexByte (drop n b) hashSeparator =? -1)%Z eqn:Hidx.
  - case_decide; by simplify_eq.
  - apply Z.eqb_neq in Hidx.
    destruct (bytes_IndexByte_found _ _ Hidx) as (pre & post & Hdrop & _ & Hi).
    rewrite Hi, Nat2Z.id in Hloop.
    assert (Hlen : length b - n = length pre + S (length post)).
    { rewrite <- length_drop, Hdrop, length_app. done. }
    case_decide; [by simplify_eq|].
    eapply IH; [| |exact Hloop]; lia.
Qed.

Lemma copy_to_nodeWriter_error (fuel : nat) :
  ∀ (w : nodeWriter.t) (file : list byte) (e : error),
    length file < fuel →
    copy_to_nodeWriter fuel w file = Err e →
    e = errInvalidNode.
Proof.
  induction fuel as [|fuel IH]; intros w file e Hfuel Hcopy; [lia|].
  cbn [copy_to_nodeWriter] in Hcopy. destruct file as [|x file]; [done|].
  remember (x :: file) as f eqn:Hf.
  destruct (nodeWriter.Write w (take copyBufSize f)) as [[k [e'|]] w'] eqn:Hw.
  - injection Hcopy as <-. rewrite nodeWriter_Write_eq in Hw.
    eapply nodeWriter_loop_error; [| |exact Hw]; lia.
  - eapply IH; [|exact Hcopy]. rewrite length_drop.
    assert (length f = S (length file)) by (by rewrite Hf).
    assert (0 < copyBufSize) by (unfold copyBufSize; lia). lia.
Qed.

Lemma parseNode_error (file : list byte) (e : error) :
  parseNode file = Err e → e = errInvalidNode.
Proof.
  unfold parseNode.
  destruct (copy_to_nodeWriter _ _ _) as [w|e'] eqn:Hcopy; [done|].
  intros [= <-]. eapply copy_to_nodeWriter_error; [|exact Hcopy]. lia.
Qed.

Lemma parseStep_fold_error (m : gmap string (list byte)) :
  ∀ acc,
    match (map_fold parseStep (acc, None) m).2 with
    | Some e => e = errInvalidNode
    | None => ∀ key file, m !! key = Some file → is_Some (nodeOf file)
    end.
Proof.
  induction m as [|i x m Hi Hfirst IH] using map_first_key_ind; intros acc.
  - rewrite map_fold_empty. simpl. intros key file Hk. by rewrite lookup_empty in Hk.
  - rewrite map_fold_insert_first_key by done. specialize (IH acc).
    destruct (map_fold parseStep (acc, None) m) as [nodes1 e1].
    simpl in IH. unfold parseStep. simpl. destruct e1 as [e|]; [done|].
    destruct (parseNode x) as [nd|e] eqn:Hp; simpl.
    + intros key file Hk. destruct (decide (key = i)) as [->|Hne].
      * rewrite lookup_insert_eq in Hk. simplify_eq. unfold nodeOf. by rewrite Hp.
      * rewrite lookup_insert_ne in Hk by done. by eapply IH.
    + by eapply parseNode_error.
Qed.

(** One node file that does not parse stops Clean after its first walk: it
    returns errInvalidNode and removes no block file, orphans included. *)
Theorem Clean_aborts_on_invalid_node (st : BlockStorage) (w : World)
    (key : string) (file : list byte) :
  lockClosed w = false →
  nodeDir w !! key = Some file →
  nodeOf file = None →
  (Clean st w).1 = Err errInvalidNode ∧
  blockDir (Clean st w).2 = blockDir w ∧
  nodeDir (Clean st w).2 = nodeDir w.
Proof.
  intros Hopen Hfile Hbad.
  destruct (Clean_spec st w Hopen) as (w' & Hn & _ & _ & Hres).
  pose proof (parseStep_fold_error (nodeDir w) ∅) as Herr.
  fold (parseAll (nodeDir w)) in Herr.
  destruct (parseAll (nodeDir w)).2 as [e|].
  - subst e. destruct Hres as [-> Hb]. done.
  - destruct (Herr key file Hfile) as [nd Hnd]. congruence.
Qed.

End Parse_errors.
(** ** What the parser accepts *)

Lemma bytes_IndexByte_app (pre post : list byte) (c : byte) :
  c ∉ pre → bytes_IndexByte (pre ++ c :: post) c = Z.of_nat (length pre).
Proof.
  induction pre as [|x pre IH]; intros Hpre; simpl.
  - by rewrite decide_True.
  - apply not_elem_of_cons in Hpre as [Hne Hpre].
    rewrite decide_False by done. rewrite IH by done.
    destruct (Z.of_nat (length pre) =? -1)%Z eqn:Hz; [apply Z.eqb_eq in Hz|]; lia.
Qed.

Section Parser_sound.
Context `{HashEncoder}.

Lemma nodeWriter_loop_sound (fuel : nat) :
  ∀ (got : list string) (buf b : list byte) (n k : nat) (w' : nodeWriter.t),
    n ≤ length b →
    hashSeparator ∉ buf →
    nodeWriter.loop fuel (nodeWriter.mk (Node got) buf) b n = ((k, None), w') →
    ∃ hs,
      nodeWriter.node_ w' = Node (got ++ hs) ∧
      Forall validHash hs ∧
      buf ++ drop n b = nodeBytes (Node hs) ++ nodeWriter.buf w' ∧
      (hashSeparator ∉ nodeWriter.buf w') ∧
      k = length b.
Proof.
  induction fuel as [|fuel IH]; intros got buf b n k w' Hn Hbuf Hloop; [done|].
  cbn [nodeWriter.loop nodeWriter.buf nodeWriter.node_ hashes] in Hloop.
  destruct (bytes_IndexByte (drop n b) hashSeparator =? -1)%Z eqn:Hidx.
  - apply Z.eqb_eq, bytes_IndexByte_none in Hidx.
    case_decide; [done|]. simplify_eq. exists []. simpl.
    rewrite app_nil_r. split_and!; try done.
    rewrite not_elem_of_app. split; assumption.
  - apply Z.eqb_neq in Hidx.
    destruct (bytes_IndexByte_found _ _ Hidx) as (pre & post & Hdrop & Hpre & Hi).
    rewrite Hi, Nat2Z.id, Hdrop, take_app_length in Hloop.
    destruct (decide (length (buf ++ pre) = encodedHashLen)) as [Hlen'|Hlen'];
      [rewrite decide_False in Hloop by (by intros ?)
      |by rewrite decide_True in Hloop by done].
    assert (Hlenb : length b - n = length pre + S (length post)).
    { rewrite <- length_drop, Hdrop, length_app. done. }
    apply IH in Hloop as (hs & Hnode & Hvalid & Hrest & Hbuf' & Hk);
      [|lia|apply not_elem_of_nil].
    exists (string_of_list_byte (buf ++ pre) :: hs). split_and!; try done.
    + by rewrite Hnode, <- app_assoc.
    + apply Forall_cons. split; [|done]. split.
      * by rewrite <- length_list_byte_of_string, list_byte_of_string_of_list_byte.
      * rewrite list_byte_of_string_of_list_byte, not_elem_of_app.
        split; assumption.
    + rewrite nodeBytes_cons, list_byte_of_string_of_list_byte.
      rewrite Hdrop, <- !app_assoc. f_equal. f_equal. simpl. f_equal.
      rewrite <- Hrest. simpl.
      replace (n + length pre + 1) with (n + (length pre + 1)) by lia.
      rewrite <- drop_drop, Hdrop.
      replace (length pre + 1) with (length (pre ++ [hashSeparator]))
        by (rewrite length_app; done).
      rewrite (cons_middle hashSeparator pre post), app_assoc.
      by rewrite drop_app_length.
Qed.

Lemma copy_to_nodeWriter_sound (fuel : nat) :
  ∀ (got : list string) (buf file : list byte) (w' : nodeWriter.t),
    hashSeparator ∉ buf →
    copy_to_nodeWriter fuel (nodeWriter.mk (Node got) buf) file = Ok w' →
    ∃ hs,
      nodeWriter.node_ w' = Node (got ++ hs) ∧
      Forall validHash hs ∧
      buf ++ file = nodeBytes (Node hs) ++ nodeWriter.buf w' ∧
      hashSeparator ∉ nodeWriter.buf w'.
Proof.
  induction fuel as [|fuel IH]; intros got buf file w' Hbuf Hcopy; [done|].
  cbn [copy_to_nodeWriter] in Hcopy. destruct file as [|x file].
  - simplify_eq. exists []. simpl. by rewrite !app_nil_r.
  - remember (x :: file) as f eqn:Hf. clear Hf.
    destruct (nodeWriter.Write _ (take copyBufSize f)) as [[k [e|]] w1] eqn:Hw; [done|].
    rewrite nodeWriter_Write_eq in Hw.
    apply nodeWriter_loop_sound in Hw as (hs1 & Hnode1 & Hvalid1 & Hrest1 & Hbuf1 & _);
      [|lia|done].
    destruct w1 as [[got1] buf1]. simpl in Hnode1, Hrest1, Hbuf1. simplify_eq.
    apply IH in Hcopy as (hs2 & Hnode2 & Hvalid2 & Hrest2 & Hbuf2); [|done].
    exists (hs1 ++ hs2). split_and!; try done.
    + by rewrite Hnode2, <- app_assoc.
    + by apply Forall_app.
    + rewrite drop_0 in Hrest1.
      rewrite <- (take_drop copyBufSize f) at 1.
      rewrite app_assoc, Hrest1, <- app_assoc, Hrest2.
      unfold nodeBytes. simpl. by rewrite flat_map_app, <- app_assoc.
Qed.

Lemma parseNode_inv (file : list byte) (nd : node) :
  parseNode file = Ok nd →
  Forall validHash (hashes nd) ∧
  ∃ tail, file = nodeBytes nd ++ tail ∧ hashSeparator ∉ tail.
Proof.
  unfold parseNode, nodeWriter.new.
  destruct (copy_to_nodeWriter _ _ _) as [w|e] eqn:Hcopy; [|done].
  intros [= <-].
  apply copy_to_nodeWriter_sound in Hcopy as (hs & Hnode & Hvalid & Hrest & Hbuf);
    [|apply not_elem_of_nil].
  simpl in Hnode, Hrest. rewrite Hnode. simpl. split; [done|].
  exists (nodeWriter.buf w). by rewrite Hrest.
Qed.

(** Whatever parses is the serialization of the node it parses to, made of
    valid names, followed by bytes that hold no separator. *)
Theorem parseNode_sound (file : list byte) (nd : node) :
  parseNode file = Ok nd →
  Forall validHash (hashes nd) ∧
  ∃ tail, file = nodeBytes nd ++ tail ∧ hashSeparator ∉ tail.
Proof. apply parseNode_inv. Qed.

Lemma parseNode_segment_invalid (hs : list string) (seg rest : list byte) :
  Forall validHash hs →
  hashSeparator ∉ seg →
  length seg ≠ encodedHashLen →
  parseNode (nodeBytes (Node hs) ++ seg ++ hashSeparator :: rest) = Err errInvalidNode.
Proof.
  intros Hvalid Hseg Hlen.
  destruct (parseNode _) as [nd|e] eqn:Hp.
  - exfalso. apply parseNode_inv in Hp as (Hv & tail & Heq & Htail).
    destruct nd as [hs'].
    assert (Hcut : ∃ hs2, hs' = hs ++ hs2 ∧
                          seg ++ hashSeparator :: rest = nodeBytes (Node hs2) ++ tail).
    { clear Hlen. revert hs' Hv Heq. induction hs as [|h hs IH]; intros hs' Hv Heq.
      - by exists hs'.
      - apply Forall_cons in Hvalid as [[Hl Hf] Hvalid].
        destruct hs' as [|h' hs'].
        + exfalso. simpl in Heq. apply Htail. rewrite <- Heq.
          rewrite nodeBytes_cons, <- app_assoc. apply elem_of_app. right. by left.
        + rewrite !nodeBytes_cons, <- !app_assoc in Heq. simpl in Heq.
          apply Forall_cons in Hv as [[_ Hf'] Hv].
          apply first_sep_unique in Heq as [Hh Hrest]; [|done|done].
          destruct (IH Hvalid hs' Hv Hrest) as (hs2 & -> & Hcut).
          exists hs2. split; [|done]. f_equal.
          by rewrite <- (string_of_list_byte_of_string h), Hh,
            string_of_list_byte_of_string. }
    destruct Hcut as (hs2 & -> & Hcut). apply Forall_app in Hv as [_ Hv2].
    destruct hs2 as [|h2 hs2].
    + simpl in Hcut. apply Htail. rewrite <- Hcut. apply elem_of_app. right. by left.
    + rewrite nodeBytes_cons, <- app_assoc in Hcut. simpl in Hcut.
      apply Forall_cons in Hv2 as [[Hl2 Hf2] _].
      apply first_sep_unique in Hcut as [Hh _]; [|done|done].
      apply Hlen. by rewrite Hh, length_list_byte_of_string.
  - f_equal. by eapply parseNode_error.
Qed.

(** A separator-terminated segment of the wrong length anywhere after valid
    names makes the file invalid, whatever follows it. *)
Theorem parseNode_bad_segment (hs : list string) (seg rest : list byte) :
  Forall validHash hs →
  hashSeparator ∉ seg →
  length seg ≠ encodedHashLen →
  parseNode (nodeBytes (Node hs) ++ seg ++ hashSeparator :: rest) = Err errInvalidNode.
Proof. apply parseNode_segment_invalid. Qed.

End Parser_sound.
(** ** Streams cut into pieces, and bytes after the last separator *)

Section Parser_pieces.
Context `{HashEncoder}.

(** One [Write] call inside a stream that is a well-formed node followed by
    at most [encodedHashLen] bytes without a separator. *)
Lemma nodeWriter_loop_tail (fuel : nat) :
  ∀ (hs got : list string) (buf b rest tail : list byte) (n : nat),
    length b - n < fuel → n ≤ length b →
    Forall validHash hs →
    hashSeparator ∉ buf →
    hashSeparator ∉ tail → length tail ≤ encodedHashLen →
    buf ++ drop n b ++ rest = nodeBytes (Node hs) ++ tail →
    ∃ hs1 hs2 buf',
      hs = hs1 ++ hs2 ∧
      nodeWriter.loop fuel (nodeWriter.mk (Node got) buf) b n =
        ((length b, None), nodeWriter.mk (Node (got ++ hs1)) buf') ∧
      (hashSeparator ∉ buf') ∧
      buf' ++ rest = nodeBytes (Node hs2) ++ tail.
Proof.
  induction fuel as [|fuel IH];
    intros hs got buf b rest tail n Hfuel Hn Hvalid Hbuf Htail Htlen Heq; [lia|].
  cbn [nodeWriter.loop nodeWriter.buf nodeWriter.node_ hashes].
  destruct (bytes_IndexByte (drop n b) hashSeparator =? -1)%Z eqn:Hidx.
  - apply Z.eqb_eq, bytes_IndexByte_none in Hidx.
    rewrite decide_False.
    + exists [], hs, (buf ++ drop n b). rewrite app_nil_r, <- app_assoc.
      split_and!; try done. rewrite not_elem_of_app. split; assumption.
    + destruct hs as [|hash hs].
      * simpl in Heq. apply (f_equal length) in Heq.
        rewrite !length_app in Heq. lia.
      * rewrite nodeBytes_cons, <- app_assoc in Heq. simpl in Heq.
        apply Forall_cons in Hvalid as [[Hlen _] _].
        apply sep_free_prefix in Heq; [|done].
        rewrite length_list_byte_of_string in Heq. lia.
  - apply Z.eqb_neq in Hidx.
    destruct (bytes_IndexByte_found _ _ Hidx) as (pre & post & Hdrop & Hpre & Hi).
    rewrite Hi, Nat2Z.id. rewrite Hdrop in Heq |- *.
    rewrite take_app_length.
    destruct hs as [|hash hs].
    { exfalso. simpl in Heq. apply Htail. rewrite <- Heq.
      apply elem_of_app. right. apply elem_of_app. left.
      apply elem_of_app. right. by left. }
    rewrite nodeBytes_cons, <- (app_assoc _ _ tail) in Heq. simpl in Heq.
    apply Forall_cons in Hvalid as [[Hlen Hfree] Hvalid].
    assert (Hcut : buf ++ pre = list_byte_of_string hash ∧
                   post ++ rest = nodeBytes (Node hs) ++ tail).
    { apply (first_sep_unique hashSeparator).
      - rewrite not_elem_of_app. split; assumption.
      - done.
      - rewrite <- Heq. by rewrite <- !app_assoc. }
    destruct Hcut as [Hhash Hrest].
    rewrite decide_False.
    2:{ intros Hne. apply Hne. by rewrite Hhash, length_list_byte_of_string. }
    rewrite Hhash, string_of_list_byte_of_string.
    assert (Hlenb : length (drop n b) = length pre + S (length post)).
    { rewrite Hdrop, length_app. done. }
    rewrite length_drop in Hlenb.
    destruct (IH hs (got ++ [hash]) [] b rest tail (n + length pre + 1))
      as (hs1 & hs2 & buf' & -> & Hloop & Hbuf' & Hrest');
      [lia|lia|done|apply not_elem_of_nil|done|done| |].
    { simpl. rewrite <- Hrest. f_equal.
      replace (n + length pre + 1) with (n + (length pre + 1)) by lia.
      rewrite <- drop_drop, Hdrop.
      replace (length pre + 1) with (length (pre ++ [hashSeparator]))
        by (rewrite length_app; done).
      rewrite (cons_middle hashSeparator pre post), app_assoc.
      by rewrite drop_app_length. }
    exists (hash :: hs1), hs2, buf'. split; [done|].
    rewrite Hloop, <- app_assoc. done.
Qed.

Lemma nodeBytes_tail_sep_free (hs : list string) (buf tail : list byte) :
  hashSeparator ∉ buf → buf = nodeBytes (Node hs) ++ tail → hs = [] ∧ buf = tail.
Proof.
  intros Hbuf Heq. destruct hs as [|hash hs]; [done|].
  rewrite nodeBytes_cons in Heq. exfalso. apply Hbuf. rewrite Heq, <- app_assoc.
  apply elem_of_app. right. by left.
Qed.

Lemma nodeWriter_feed_tail (pieces : list (list byte)) :
  ∀ (hs got : list string) (buf tail : list byte),
    Forall validHash hs →
    hashSeparator ∉ buf →
    hashSeparator ∉ tail → length tail ≤ encodedHashLen →
    buf ++ concat pieces = nodeBytes (Node hs) ++ tail →
    nodeWriter_feed (nodeWriter.mk (Node got) buf) pieces =
      Ok (nodeWriter.mk (Node (got ++ hs)) tail).
Proof.
  induction pieces as [|b pieces IH]; intros hs got buf tail Hvalid Hbuf Htail Htlen Heq.
  - simpl in Heq. rewrite app_nil_r in Heq.
    destruct (nodeBytes_tail_sep_free hs buf tail Hbuf Heq) as [-> ->].
    by rewrite app_nil_r.
  - cbn [nodeWriter_feed concat] in *. unfold nodeWriter.Write.
    destruct (nodeWriter_loop_tail (S (length b)) hs got buf b (concat pieces) tail 0)
      as (hs1 & hs2 & buf' & -> & Hloop & Hbuf' & Hrest); try done; try lia.
    rewrite Hloop. apply Forall_app in Hvalid as [_ Hvalid2].
    rewrite (IH hs2 (got ++ hs1) buf' tail); try done.
    by rewrite <- app_assoc.
Qed.

(** However a well-formed stream is cut into [Write] calls, the writer ends
    with the node; up to [encodedHashLen] bytes after the last separator stay
    in its buffer and raise no error. *)
Theorem nodeWriter_any_split (pieces : list (list byte)) (nd : node)
    (tail : list byte) :
  Forall validHash (hashes nd) →
  hashSeparator ∉ tail → length tail ≤ encodedHashLen →
  concat pieces = nodeBytes nd ++ tail →
  nodeWriter_feed nodeWriter.new pieces = Ok (nodeWriter.mk nd tail).
Proof.
  intros Hvalid Htail Htlen Heq. destruct nd as [hs]. unfold nodeWriter.new.
  by rewrite (nodeWriter_feed_tail pieces hs [] [] tail);
    try done; try apply not_elem_of_nil.
Qed.

Lemma copy_to_nodeWriter_tail (fuel : nat) :
  ∀ (hs got : list string) (buf file tail : list byte),
    length file < fuel →
    Forall validHash hs →
    hashSeparator ∉ buf →
    hashSeparator ∉ tail → length tail ≤ encodedHashLen →
    buf ++ file = nodeBytes (Node hs) ++ tail →
    copy_to_nodeWriter fuel (nodeWriter.mk (Node got) buf) file =
      Ok (nodeWriter.mk (Node (got ++ hs)) tail).
Proof.
  induction fuel as [|fuel IH];
    intros hs got buf file tail Hfuel Hvalid Hbuf Htail Htlen Heq; [lia|].
  cbn [copy_to_nodeWriter]. destruct file as [|x file].
  - rewrite app_nil_r in Heq.
    destruct (nodeBytes_tail_sep_free hs buf tail Hbuf Heq) as [-> ->].
    by rewrite app_nil_r.
  - remember (x :: file) as f eqn:Hf.
    destruct (nodeWriter_loop_tail (S (length (take copyBufSize f))) hs got buf
                (take copyBufSize f) (drop copyBufSize f) tail 0)
      as (hs1 & hs2 & buf' & -> & Hloop & Hbuf' & Hrest'); try done; try lia.
    { by rewrite drop_0, take_drop. }
    unfold nodeWriter.Write. rewrite Hloop.
    apply Forall_app in Hvalid as [_ Hvalid2].
    rewrite (IH hs2 (got ++ hs1) buf' (drop copyBufSize f) tail); try done.
    + by rewrite <- app_assoc.
    + rewrite length_drop. subst f. cbn [length] in Hfuel |- *.
      assert (0 < copyBufSize) by (unfold copyBufSize; lia). lia.
Qed.

(** A node file cut short inside a name, or with other bytes after its last
    separator, parses without an error to the names before them. *)
Theorem parseNode_ignores_tail (nd : node) (tail : list byte) :
  Forall validHash (hashes nd) →
  hashSeparator ∉ tail → length tail ≤ encodedHashLen →
  parseNode (nodeBytes nd ++ tail) = Ok nd.
Proof.
  intros Hvalid Htail Htlen. unfold parseNode, nodeWriter.new. destruct nd as [hs].
  rewrite (copy_to_nodeWriter_tail _ hs [] [] (nodeBytes (Node hs) ++ tail) tail);
    try done; [lia|apply not_elem_of_nil].
Qed.

End Parser_pieces.

(** ** The serializer with room for the whole node *)

Lemma nodeReader_loop_roomy (rest : list string) :
  ∀ (lenb : nat) (b : list byte) (idx : nat),
    length b + length (nodeBytes (Node rest)) ≤ lenb →
    nodeReader.loop rest lenb b idx 0 =
      (b ++ nodeBytes (Node rest), Some io_EOF, (idx + length rest, 0%Z)).
Proof.
  induction rest as [|hash rest IH]; intros lenb b idx Hroom.
  - simpl. by rewrite app_nil_r, Nat.add_0_r.
  - rewrite nodeBytes_cons in Hroom |- *.
    rewrite length_app in Hroom. cbn [length] in Hroom.
    rewrite length_list_byte_of_string in Hroom.
    cbn [nodeReader.loop]. change (Z.to_nat 0) with 0. rewrite drop_0.
    rewrite length_list_byte_of_string, Nat.min_r by lia.
    rewrite (take_ge (list_byte_of_string hash))
      by (rewrite length_list_byte_of_string; lia).
    Zltb_false.
    rewrite decide_False
      by (rewrite length_app, length_list_byte_of_string; lia).
    rewrite IH.
    + rewrite <- !app_assoc. simpl. do 3 f_equal. lia.
    + rewrite !length_app, length_list_byte_of_string. simpl. lia.
Qed.

Lemma nodeReader_Read_roomy (nd : node) (lenb : nat) :
  length (nodeBytes nd) ≤ lenb →
  nodeReader.Read (nodeReader.new nd) lenb =
    Some (nodeBytes nd, Some io_EOF, nodeReader.mk nd (length (hashes nd)) 0).
Proof.
  intros Hroom. unfold nodeReader.Read, nodeReader.new.
  cbn [nodeReader.last nodeReader.idx nodeReader.node_].
  rewrite decide_False by done. rewrite drop_0.
  destruct nd as [hs]. cbn [hashes].
  by rewrite nodeReader_loop_roomy by (simpl; lia).
Qed.

Lemma copy_from_nodeReader_roomy (nd : node) :
  length (nodeBytes nd) ≤ copyBufSize →
  copy_from_nodeReader (S (length (nodeBytes nd))) (nodeReader.new nd) [] =
    Ok (nodeBytes nd).
Proof.
  intros Hroom. cbn [copy_from_nodeReader].
  by rewrite nodeReader_Read_roomy.
Qed.

(** A buffer that holds the whole serialization gets it in one [Read]: every
    name followed by the separator, nothing after the last one, and EOF;
    the reader is then at the end of the names. *)
Theorem nodeReader_one_shot (nd : node) (lenb : nat) :
  length (nodeBytes nd) ≤ lenb →
  nodeReader.Read (nodeReader.new nd) lenb =
    Some (nodeBytes nd, Some io_EOF, nodeReader.mk nd (length (hashes nd)) 0).
Proof. apply nodeReader_Read_roomy. Qed.

(** The codec as the store uses it: what [io.CopyBuffer] takes out of the
    nodeReader of a node of valid names parses back to that node, as long as
    the node fits the copy buffer. *)
Theorem node_codec_roundtrip `{HashEncoder} (nd : node) :
  Forall validHash (hashes nd) →
  length (nodeBytes nd) ≤ copyBufSize →
  ∃ file,
    copy_from_nodeReader (S (length (nodeBytes nd))) (nodeReader.new nd) [] =
      Ok file ∧
    parseNode file = Ok nd.
Proof.
  intros Hvalid Hroom. exists (nodeBytes nd).
  split; [by apply copy_from_nodeReader_roomy|by apply parseNode_nodeBytes].
Qed.
(** ** What a write leaves alone *)

Lemma blocks_grow_refl (w : World) : blocks_grow w w.
Proof. by split_and!. Qed.

Lemma blocks_grow_trans (w1 w2 w3 : World) :
  blocks_grow w1 w2 → blocks_grow w2 w3 → blocks_grow w1 w3.
Proof.
  intros (? & ? & ? & ?) (? & ? & ? & ?). split_and!; try congruence.
  by etrans.
Qed.

Lemma same_files_blocks_grow (w w' : World) : same_files w w' → blocks_grow w w'.
Proof. intros (? & Hb & ? & ?). split_and!; try done. by rewrite Hb. Qed.

Section Write_frame.
Context `{HashEncoder}.

Lemma writeBlock_fresh (st : BlockStorage) (hash : string) (value : list byte)
    (w : World) :
  blockDir w !! hash = None →
  blocks_grow w (writeBlock st hash value w).2.
Proof.
  intros Hfresh. unfold writeBlock, blockPathForKey, open.
  cbn [file_at sys blockDir defaultFileRWFlags O_CREAT O_EXCL O_TRUNC].
  rewrite Hfresh.
  destruct (Writer (compression st) value) as [stored|e]; simpl.
  - unfold file_Write. cbn [file_at put_file blockDir]. rewrite lookup_insert_eq.
    cbn. split_and!; try done. rewrite insert_insert_eq. by apply insert_subseteq.
  - split_and!; try done. by apply insert_subseteq.
Qed.

(** The chunk loop adds block files under names that were free and changes
    nothing else, however it ends. *)
Lemma chunkLoop_blocks_grow (fuel : nat) :
  ∀ (st : BlockStorage) (r : list byte) (nd : node) (w : World),
    blocks_grow w (chunkLoop fuel st r nd w).2.
Proof.
  induction fuel as [|fuel IH]; intros st r nd w; [apply blocks_grow_refl|].
  cbn [chunkLoop]. unfold bind at 1.
  pose proof (bufpool_Get_same_files w) as Hget.
  destruct (bufpool_Get w) as [[buf|e] w1]; simpl in Hget;
    [|by apply same_files_blocks_grow].
  apply same_files_blocks_grow in Hget.
  destruct (io_ReadFull r (B (Buffer_Grow buf (Z.to_nat (BlockSize (config st))))))
    as [[[n err] bufB] r'].
  assert (Hbody : blocks_grow w1
    ((let* has := statBlock (EncodeSum bufB) in
      if has then chunkLoop fuel st r' (Node (hashes nd ++ [EncodeSum bufB]))
      else let* _ := writeBlock st (EncodeSum bufB) (take n bufB) in
           if n <? length bufB then ret (Node (hashes nd ++ [EncodeSum bufB]))
           else chunkLoop fuel st r' (Node (hashes nd ++ [EncodeSum bufB]))) w1).2).
  { unfold bind at 1. unfold statBlock, stat, blockPathForKey. cbn [exists_at].
    set (w2 := sys _ w1).
    assert (H12 : blocks_grow w1 w2) by (by split_and!).
    destruct (blockDir w1 !! EncodeSum bufB) as [data|] eqn:Hsum;
      change (blockDir w1) with (blockDir w2) in Hsum.
    - rewrite bool_decide_eq_true_2 by done.
      eapply blocks_grow_trans; [exact H12|apply IH].
    - rewrite bool_decide_eq_false_2 by (by intros [? ?]).
      unfold bind.
      pose proof (writeBlock_fresh st (EncodeSum bufB) (take n bufB) w2 Hsum) as Hw.
      destruct (writeBlock st (EncodeSum bufB) (take n bufB) w2) as [[[]|e] w3];
        simpl in Hw; [|by eapply blocks_grow_trans].
      destruct (n <? length bufB).
      + by eapply blocks_grow_trans.
      + eapply blocks_grow_trans; [exact Hw|apply IH]. }
  destruct err as [e|].
  - destruct e; try by (simpl; exact Hget).
    eapply blocks_grow_trans; [exact Hget|exact Hbody].
  - eapply blocks_grow_trans; [exact Hget|exact Hbody].
Qed.

End Write_frame.
Lemma nodeReader_loop_error (rest : list string) :
  ∀ (lenb : nat) (b : list byte) (idx : nat) (last : Z),
    (nodeReader.loop rest lenb b idx last).1.2 = None ∨
    (nodeReader.loop rest lenb b idx last).1.2 = Some io_EOF.
Proof.
  induction rest as [|hash rest IH]; intros lenb b idx last; [by right|].
  cbn [nodeReader.loop].
  destruct (_ <? _)%Z; [by left|]. case_decide; [by left|]. apply IH.
Qed.

Lemma copy_from_nodeReader_error (fuel : nat) :
  ∀ (r : nodeReader.t) (acc : list byte) (e : error),
    copy_from_nodeReader fuel r acc = Err e → e = OutOfFuel ∨ e = Panicked.
Proof.
  induction fuel as [|fuel IH]; intros r acc e Hcopy; simpl in Hcopy.
  - left. by simplify_eq.
  - destruct (nodeReader.Read r copyBufSize) as [[[b err] r']|] eqn:Hread.
    2:{ right. by simplify_eq. }
    assert (Herr : err = None ∨ err = Some io_EOF).
    { unfold nodeReader.Read in Hread.
      destruct (decide (nodeReader.last r = (-1)%Z)).
      - destruct copyBufSize; [done|].
        pose proof (nodeReader_loop_error
          (drop (nodeReader.idx r) (hashes (nodeReader.node_ r))) (S n)
          [hashSeparator] (nodeReader.idx r) 0%Z) as Hl.
        destruct (nodeReader.loop _ _ _ _ _) as [[b0 err0] [i l]].
        simplify_eq. exact Hl.
      - pose proof (nodeReader_loop_error
          (drop (nodeReader.idx r) (hashes (nodeReader.node_ r))) copyBufSize
          [] (nodeReader.idx r) (nodeReader.last r)) as Hl.
        destruct (nodeReader.loop _ _ _ _ _) as [[b0 err0] [i l]].
        simplify_eq. exact Hl. }
    destruct Herr as [-> | ->]; [by eapply IH|done].
Qed.

Section Write_frame_2.
Context `{HashEncoder}.

(** What every call of WriteStream keeps, and what a failing one keeps. *)
Lemma WriteStream_keeps (st : BlockStorage) (key : string) (r : list byte) (w : World) :
  (∀ k, k ≠ key → nodeDir (WriteStream st key r w).2 !! k = nodeDir w !! k) ∧
  blockDir w ⊆ blockDir (WriteStream st key r w).2 ∧
  cwd (WriteStream st key r w).2 = cwd w ∧
  lockClosed (WriteStream st key r w).2 = lockClosed w ∧
  (∀ e, (WriteStream st key r w).1 = Err e → e ≠ OutOfFuel → e ≠ Panicked →
        nodeDir (WriteStream st key r w).2 = nodeDir w).
Proof.
  unfold WriteStream, bind, lift, lock_Closed.
  destruct (nodePathForKey key) as [p|e] eqn:Hkey; [|by split_and!].
  apply nodePathForKey_Ok in Hkey as ->.
  destruct (lockClosed w) eqn:Hopen; [by split_and!|].
  unfold stat. cbn [fst snd].
  destruct (exists_at (RelPath key) w && negb (Overwrite (config st)));
    [by split_and!|].
  unfold os_MkdirAll.
  set (w3 := sys (SysMkdirAll BlockDir) _).
  pose proof (chunkLoop_blocks_grow (S (length r)) st r (Node []) w3)
    as (Hn4 & Hb4 & Hc4 & Hl4).
  destruct (chunkLoop (S (length r)) st r (Node []) w3) as [[nd|e] w4];
    cbn [snd] in Hn4, Hb4, Hc4, Hl4.
  2:{ cbn [fst snd]. frame_leaf Hn4 Hl4. }
  case_decide.
  { cbn [fail fst snd]. frame_leaf Hn4 Hl4. }
  pose proof (copy_from_nodeReader_error (S (length (nodeBytes nd)))
    (nodeReader.new nd) []) as Hcp.
  set (cp := copy_from_nodeReader _ _ _) in *. clearbody cp.
  assert (Hfinish : ∀ w5,
    (∀ k, k ≠ key → nodeDir w5 !! k = nodeDir w !! k) →
    blockDir w ⊆ blockDir w5 → cwd w5 = cwd w → lockClosed w5 = lockClosed w →
    is_Some (nodeDir w5 !! key) →
    let res :=
      match bufpool_Get w5 with
      | (Ok _, w6) =>
          match cp with
          | Ok data => file_Write (NodePath key) data w6
          | Err e => (Err e, w6)
          end
      | (Err e, w6) => (Err e, w6)
      end in
    (∀ k, k ≠ key → nodeDir res.2 !! k = nodeDir w !! k) ∧
    blockDir w ⊆ blockDir res.2 ∧ cwd res.2 = cwd w ∧ lockClosed res.2 = lockClosed w ∧
    (∀ e, res.1 = Err e → e ≠ OutOfFuel → e ≠ Panicked → nodeDir res.2 = nodeDir w)).
  { intros w5 Hk5 Hb5 Hc5 Hl5 Hfile.
    pose proof (bufpool_Get_same_files w5) as (Hn6 & Hb6 & Hc6 & Hl6).
    destruct (bufpool_Get w5) as [[buf|e] w6] eqn:Hget; cbn [snd] in *.
    2:{ unfold bufpool_Get in Hget. by destruct (bufpool w5). }
    destruct cp as [data|e] eqn:Hcopy; cbn.
    - unfold file_Write. cbn [file_at]. rewrite Hn6.
      destruct Hfile as [old ->]. cbn. split_and!; try congruence.
      + intros k Hk. rewrite lookup_insert_ne by done. rewrite Hn6. by apply Hk5.
      + by rewrite Hb6.
    - split_and!; try congruence.
      + intros k Hk. rewrite Hn6. by apply Hk5.
      + by rewrite Hb6.
      + intros e' [= <-] Hf Hp. by destruct (Hcp e eq_refl). }
  rewrite Hopen in Hfinish.
  unfold map_err, open. cbn [file_at sys nodeDir].
  destruct (nodeDir w4 !! key) as [old|] eqn:Hold.
  - destruct (Overwrite (config st)); cbn.
    + refine (Hfinish _ _ _ _ _ _); cbn; finish_leaf Hn4 Hl4.
    + frame_leaf Hn4 Hl4.
  - assert (Hcreate : O_CREAT (if Overwrite (config st) then defaultFileRWFlags
                               else with_O_EXCL defaultFileRWFlags) = true).
    { by destruct (Overwrite (config st)). }
    rewrite Hcreate. cbn [fst snd].
    refine (Hfinish _ _ _ _ _ _); cbn; finish_leaf Hn4 Hl4.
Qed.

(** A write never removes or rewrites a block file that is there, never
    touches the node file of another key, and leaves the working directory
    and the lock as they are. *)
Theorem WriteStream_frame (st : BlockStorage) (key : string) (r : list byte)
    (w : World) :
  blockDir w ⊆ blockDir (WriteStream st key r w).2 ∧
  (∀ k, k ≠ key → nodeDir (WriteStream st key r w).2 !! k = nodeDir w !! k) ∧
  cwd (WriteStream st key r w).2 = cwd w ∧
  lockClosed (WriteStream st key r w).2 = lockClosed w.
Proof.
  destruct (WriteStream_keeps st key r w) as (? & ? & ? & ? & _). by split_and!.
Qed.

(** A write that fails with an error of the store or of the compressor has
    not touched any node file: the key is as it was before. *)
Theorem WriteStream_failure_keeps_nodes (st : BlockStorage) (key : string)
    (r : list byte) (w : World) (e : error) :
  (WriteStream st key r w).1 = Err e →
  e ≠ OutOfFuel → e ≠ Panicked →
  nodeDir (WriteStream st key r w).2 = nodeDir w.
Proof.
  destruct (WriteStream_keeps st key r w) as (_ & _ & _ & _ & Hfail). apply Hfail.
Qed.

End Write_frame_2.
Section More_operations.
Context `{HashEncoder}.

(** On a closed store every operation on a well-formed key, and Clean and
    WalkKeys, fail with ErrClosed before any file-system call: the world is
    returned as it was. *)
Theorem closed_store_refuses (st : BlockStorage) (key : string)
    (value : list byte) (w : World) :
  lockClosed w = true →
  nodePathForKey key = Ok (NodePath key) →
  ReadStream st key w = (Err ErrClosed, w) ∧
  WriteStream st key value w = (Err ErrClosed, w) ∧
  Stat st key w = (Err ErrClosed, w) ∧
  Remove st key w = (Err ErrClosed, w) ∧
  Clean st w = (Err ErrClosed, w) ∧
  ∀ (T : Type) (WalkFn : string → T → T) (s : T),
    WalkKeys st WalkFn s w = (Err ErrClosed, w).
Proof.
  intros Hclosed Hkey.
  unfold ReadStream, WriteStream, Stat, Remove, Clean, WalkKeys, bind, lift,
    lock_Closed, fail.
  rewrite Hkey, Hclosed. by split_and!.
Qed.

Lemma Remove_unlinks (st : BlockStorage) (key : string) (file : list byte)
    (w : World) :
  lockClosed w = false →
  nodePathForKey key = Ok (NodePath key) →
  nodeDir w !! key = Some file →
  (Remove st key w).1 = Ok tt ∧
  nodeDir (Remove st key w).2 = delete key (nodeDir w) ∧
  blockDir (Remove st key w).2 = blockDir w ∧
  cwd (Remove st key w).2 = cwd w ∧
  lockClosed (Remove st key w).2 = false.
Proof.
  intros Hopen Hkey Hfile.
  unfold Remove, bind, lift, lock_Closed, map_err, unlink.
  rewrite Hkey, Hopen. cbn [exists_at sys nodeDir].
  rewrite Hfile. rewrite bool_decide_eq_true_2 by done. cbn. by split_and!.
Qed.

(** Removing a key that is there succeeds and deletes its node file and
    nothing else: the other node files and every block file stay, and the
    key is then absent for Stat, ReadStream and a second Remove. *)
Theorem Remove_existing (st : BlockStorage) (key : string) (file : list byte)
    (w : World) :
  lockClosed w = false →
  nodePathForKey key = Ok (NodePath key) →
  nodeDir w !! key = Some file →
  ∃ w',
    Remove st key w = (Ok tt, w') ∧
    nodeDir w' = delete key (nodeDir w) ∧
    blockDir w' = blockDir w ∧
    (Stat st key w').1 = Ok false ∧
    (ReadStream st key w').1 = Err ErrNotFound ∧
    (Remove st key w').1 = Err ErrNotFound.
Proof.
  intros Hopen Hkey Hfile.
  destruct (Remove_unlinks st key file w Hopen Hkey Hfile)
    as (Hres & Hn & Hb & _ & Hl).
  exists (Remove st key w).2. split; [by destruct (Remove st key w); simplify_eq/=|].
  split; [done|]. split; [done|].
  assert (Hgone : nodeDir (Remove st key w).2 !! key = None).
  { rewrite Hn. apply lookup_delete_eq. }
  destruct (absent_key_results st key _ Hkey Hl Hgone) as (? & ? & ?).
  by split_and!.
Qed.

(** After a key is removed, Clean deletes exactly the block files that no
    other key lists: the blocks the removed value shared with another value
    are kept, those it had to itself are reclaimed. *)
Theorem Remove_then_Clean (st : BlockStorage) (key : string) (file : list byte)
    (w : World) :
  lockClosed w = false →
  nodePathForKey key = Ok (NodePath key) →
  (∀ k f, nodeDir w !! k = Some f → is_Some (nodeOf f)) →
  nodeDir w !! key = Some file →
  ∃ w1 res w2,
    Remove st key w = (Ok tt, w1) ∧ Clean st w1 = (res, w2) ∧
    (∀ name, listed_elsewhere w key name → blockDir w2 !! name = blockDir w !! name) ∧
    (∀ name, ¬ listed_elsewhere w key name → blockDir w2 !! name = None).
Proof.
  intros Hopen Hkey Hok Hfile.
  destruct (Remove_unlinks st key file w Hopen Hkey Hfile)
    as (Hres & Hn & Hb & _ & Hl).
  destruct (Remove st key w) as [res1 w1]; cbn [fst snd] in *. subst res1.
  assert (Hok1 : ∀ k f, nodeDir w1 !! k = Some f → is_Some (nodeOf f)).
  { intros k f. rewrite Hn. intros Hk%lookup_delete_Some. by apply (Hok k), Hk. }
  assert (Hlisted : ∀ name, listed w1 name ↔ listed_elsewhere w key name).
  { intros name. unfold listed, listed_elsewhere. rewrite Hn. split.
    - intros (k & f & nd & Hk%lookup_delete_Some & Hnd & Hin).
      exists k, f, nd. by destruct Hk.
    - intros (k & f & nd & Hne & Hk & Hnd & Hin).
      exists k, f, nd. split_and!; try done. by apply lookup_delete_Some. }
  destruct (Clean_spec st w1 Hl) as (w2 & _ & _ & _ & Hclean).
  destruct (parseAll_ok (nodeDir w1) Hok1) as [He _].
  rewrite He in Hclean. destruct Hclean as (Hclean & Hkeep & Hdel).
  eexists w1, _, w2. split; [done|]. split; [exact Hclean|]. split.
  - intros name Hin. rewrite <- Hb. apply Hkeep.
    by apply referenced_parseAll, Hlisted.
  - intros name Hnot. apply Hdel. rewrite referenced_parseAll by done.
    by rewrite Hlisted.
Qed.

End More_operations.
Lemma readBlock_same_files (st : BlockStorage) (hash : string) (w : World) :
  same_files w (readBlock st hash w).2.
Proof.
  unfold readBlock, bind, map_err, lift, open, file_contents, blockPathForKey.
  cbn [file_at sys blockDir].
  destruct (blockDir w !! hash) as [stored|] eqn:Hstored; cbn.
  - rewrite Hstored. by destruct (Reader (compression st) stored).
  - done.
Qed.

Lemma readBlock_blockValue (st : BlockStorage) (hash : string) (w : World) :
  (readBlock st hash w).1 =
    match blockDir w !! hash with
    | None => Err (wrap errCorruptNode (Errno ENOENT))
    | Some stored =>
        match Reader (compression st) stored with
        | Ok value => Ok value
        | Err e => Err (wrap errCorruptNode e)
        end
    end.
Proof.
  unfold readBlock, bind, map_err, lift, open, file_contents, blockPathForKey.
  cbn [file_at sys blockDir].
  destruct (blockDir w !! hash) as [stored|] eqn:Hstored; cbn.
  - rewrite Hstored. by destruct (Reader (compression st) stored).
  - done.
Qed.

Section Reading.
Context `{HashEncoder}.

Lemma blockReader_loop_same_files (st : BlockStorage) (hs : list string) :
  ∀ lenb b buf prev w,
    same_files w (blockReader.loop st hs lenb b buf prev w).2.
Proof.
  induction hs as [|hash hs IH]; intros lenb b buf prev w; cbn [blockReader.loop].
  - done.
  - pose proof (readBlock_same_files st hash w) as Hrd.
    destruct (readBlock st hash w) as [[data|e] w1]; cbn [snd] in Hrd; [|done].
    case_decide; [done|]. eapply same_files_trans; [exact Hrd|apply IH].
Qed.

Lemma Stat_same_files (st : BlockStorage) (key : string) (w : World) :
  same_files w (Stat st key w).2.
Proof.
  unfold Stat, bind, lift, lock_Closed, stat.
  destruct (nodePathForKey key); [|done]. by destruct (lockClosed w).
Qed.

Lemma ReadStream_same_files (st : BlockStorage) (key : string) (w : World) :
  same_files w (ReadStream st key w).2.
Proof.
  unfold ReadStream, bind, lift, lock_Closed, map_err, open, file_contents.
  destruct (nodePathForKey key) as [p|] eqn:Hkey; [|done].
  apply nodePathForKey_Ok in Hkey as ->.
  destruct (lockClosed w); [done|]. cbn [file_at sys nodeDir].
  destruct (nodeDir w !! key) as [file|] eqn:Hfile; cbn; [|done].
  unfold bufpool_Get. cbn.
  destruct (bufpool w); cbn; rewrite Hfile; by destruct (parseNode file).
Qed.

(** Reading never changes a file: Stat, ReadStream and every Read of a block
    reader leave the node files, the block files, the working directory and
    the lock as they found them. *)
Theorem reads_keep_files (st : BlockStorage) (key : string) (w : World) :
  same_files w (Stat st key w).2 ∧
  same_files w (ReadStream st key w).2 ∧
  ∀ (r : blockReader.t) (lenb : nat),
    same_files w (blockReader.Read st r lenb w).2.
Proof.
  split; [apply Stat_same_files|]. split; [apply ReadStream_same_files|].
  intros r lenb. unfold blockReader.Read.
  destruct (_ <? _)%Z; [case_decide; [done|]|]; apply blockReader_loop_same_files.
Qed.

(** A node that lists a hash without a block file is not refused when the
    stream is opened: ReadStream succeeds, and it is the first Read that
    fails, with the corrupt-node error around the missing file. *)
Theorem ReadStream_missing_block (st : BlockStorage) (key : string)
    (file : list byte) (nd : node) (hash : string) (rest : list string)
    (w : World) :
  lockClosed w = false →
  nodePathForKey key = Ok (NodePath key) →
  nodeDir w !! key = Some file →
  parseNode file = Ok nd →
  hashes nd = hash :: rest →
  blockDir w !! hash = None →
  ∃ r w',
    ReadStream st key w = (Ok r, w') ∧
    ∀ lenb, ∃ r',
      (blockReader.Read st r lenb w').1 =
        ([], Some (wrap errCorruptNode (Errno ENOENT)), r').
Proof.
  intros Hopen Hkey Hfile Hparse Hhs Hmiss.
  pose proof (ReadStream_same_files st key w) as (_ & Hb & _).
  revert Hb.
  unfold ReadStream, bind, lift, lock_Closed, map_err, open, file_contents.
  rewrite Hkey, Hopen. cbn [file_at sys nodeDir]. rewrite Hfile. cbn.
  destruct (bufpool_Get _) as [[buf|e] w1] eqn:Hget.
  2:{ unfold bufpool_Get in Hget. cbn in Hget. by destruct (bufpool w). }
  assert (Hn1 : nodeDir w1 = nodeDir w).
  { unfold bufpool_Get in Hget. cbn in Hget. destruct (bufpool w); by simplify_eq. }
  cbn [file_at]. rewrite Hn1, Hfile, Hparse. cbn. intros Hb.
  eexists _, _. split; [done|]. intros lenb.
  unfold blockReader.Read. cbn. rewrite Hhs. cbn [blockReader.loop].
  pose proof (readBlock_blockValue st hash w1) as Hrd. rewrite Hb, Hmiss in Hrd.
  destruct (readBlock st hash w1) as [res w2]. cbn in Hrd. subst res.
  by eexists.
Qed.

Lemma blockReader_loop_whole (st : BlockStorage) (hs : list string) :
  ∀ (values : list (list byte)) (lenb : nat) (b buf : list byte) (prev : nat)
    (w : World),
    Forall2 (λ hash value, blockValue st w hash = Some value) hs values →
    length b + length (concat values) < lenb →
    ∃ r' w', blockReader.loop st hs lenb b buf prev w =
               ((b ++ concat values, Some io_EOF, r'), w') ∧
             hashes (blockReader.node_ r') = [].
Proof.
  induction hs as [|hash hs IH]; intros values lenb b buf prev w Hvals Hlen.
  - apply Forall2_nil_inv_l in Hvals as ->. cbn. rewrite app_nil_r.
    by eexists _, _.
  - apply Forall2_cons_inv_l in Hvals as (value & values' & Hv & Hvals & ->).
    cbn [blockReader.loop concat] in *. rewrite length_app in Hlen.
    pose proof (readBlock_blockValue st hash w) as Hrd.
    pose proof (readBlock_same_files st hash w) as (_ & Hb1 & _).
    unfold blockValue in Hv.
    destruct (blockDir w !! hash) as [stored|]; [|done].
    destruct (Reader (compression st) stored) as [value'|]; [|done].
    simplify_eq.
    destruct (readBlock st hash w) as [res w1]. cbn [fst snd] in *. subst res.
    rewrite Nat.min_r by lia. rewrite take_ge by lia.
    rewrite decide_False by (rewrite length_app; lia).
    destruct (IH values' lenb (b ++ value) value (length value) w1)
      as (r' & w' & Hloop & Hnode).
    + eapply Forall2_impl; [exact Hvals|]. intros h v. unfold blockValue.
      by rewrite Hb1.
    + rewrite length_app. lia.
    + exists r', w'. by rewrite Hloop, <- app_assoc.
Qed.

(** One Read of a fresh block reader into a buffer longer than the value
    returns the whole value, the blocks of the node in order, together
    with EOF. *)
Theorem blockReader_Read_whole (st : BlockStorage) (nd : node)
    (values : list (list byte)) (lenb : nat) (w : World) :
  Forall2 (λ hash value, blockValue st w hash = Some value) (hashes nd) values →
  length (concat values) < lenb →
  ∃ r' w',
    blockReader.Read st (blockReader.mk nd [] 0) lenb w =
      ((concat values, Some io_EOF, r'), w').
Proof.
  intros Hvals Hlen. unfold blockReader.Read. cbn.
  destruct (blockReader_loop_whole st (hashes nd) values lenb [] [] 0 w Hvals)
    as (r' & w' & Hloop & _); [cbn; lia|].
  by exists r', w'.
Qed.

End Reading.

(** The configuration a store is opened with is valid whatever was passed:
    block size and write buffer size are at least one and a compressor is
    set; values that were valid are kept, and checking a checked
    configuration changes nothing. *)
Theorem getBlockConfig_normal (cfg : option BlockConfig) :
  (1 ≤ BlockSize (getBlockConfig cfg))%Z ∧
  (1 ≤ WriteBufSize (getBlockConfig cfg))%Z ∧
  is_Some (Compression (getBlockConfig cfg)) ∧
  getBlockConfig (Some (getBlockConfig cfg)) = getBlockConfig cfg ∧
  ∀ c, cfg = Some c →
    ((1 ≤ BlockSize c)%Z → BlockSize (getBlockConfig cfg) = BlockSize c) ∧
    ((1 ≤ WriteBufSize c)%Z → WriteBufSize (getBlockConfig cfg) = WriteBufSize c) ∧
    Overwrite (getBlockConfig cfg) = Overwrite c.
Proof.
  assert (Hbs : (1 ≤ BlockSize (getBlockConfig cfg))%Z)
    by apply getBlockConfig_BlockSize.
  assert (Hws : (1 ≤ WriteBufSize (getBlockConfig cfg))%Z).
  { unfold getBlockConfig. cbn [WriteBufSize].
    destruct (_ <? 1)%Z eqn:Hlt; [done|]. by apply Z.ltb_ge in Hlt. }
  split_and!; try done.
  - clear Hbs Hws. destruct cfg as [[bs rbs ws ov cp]|]; unfold getBlockConfig; cbn; [|done].
    unfold DefaultDiskConfig_WriteBufSize.
    by destruct (bs <? 1)%Z eqn:Hb, (ws <? 1)%Z eqn:Hw; cbn; rewrite ?Hb, ?Hw.
  - intros c ->. unfold getBlockConfig. cbn. split_and!; try done.
    + intros Hc. by replace (BlockSize c <? 1)%Z with false
        by (symmetry; apply Z.ltb_ge; lia).
    + intros Hc. by replace (WriteBufSize c <? 1)%Z with false
        by (symmetry; apply Z.ltb_ge; lia).
Qed.

(** removeHash drops every occurrence of the hash, keeps the other hashes in
    their order, and reports whether there was one to drop. *)
Theorem removeHash_filters (nd : node) (hash : string) :
  hashes (removeHash nd hash).1 = filter (λ h, h ≠ hash) (hashes nd) ∧
  ((removeHash nd hash).2 = true ↔ hash ∈ hashes nd) ∧
  (hash ∉ hashes nd → (removeHash nd hash).1 = nd).
Proof.
  rewrite removeHash_spec. cbn. split_and!; [done|apply bool_decide_eq_true|].
  intros Hnot. destruct nd as [hs]. cbn in *. by rewrite filter_ne_id.
Qed.

(** ** The serializer, buffer by buffer *)

Lemma nodeBytes_length (L : nat) (hs : list string) :
  Forall (λ h, String.length h = L) hs →
  length (nodeBytes (Node hs)) = (L + 1) * length hs.
Proof.
  induction 1 as [|h hs Hh _ IH]; [cbn; lia|].
  rewrite nodeBytes_cons, !length_app, length_list_byte_of_string, Hh.
  cbn [length]. rewrite IH. lia.
Qed.

Lemma nodeBytes_drop (L : nat) (hs : list string) (i : nat) :
  Forall (λ h, String.length h = L) hs →
  drop ((L + 1) * i) (nodeBytes (Node hs)) = nodeBytes (Node (drop i hs)).
Proof.
  intros Hall. revert i. induction Hall as [|h hs Hh _ IH]; intros i.
  - change (nodeBytes (Node [])) with (@nil byte). by rewrite !drop_nil.
  - destruct i as [|i]; [by rewrite Nat.mul_0_r, !drop_0|].
    rewrite nodeBytes_cons. cbn [drop].
    rewrite (cons_middle hashSeparator), app_assoc.
    replace ((L + 1) * S i) with (length (list_byte_of_string h ++ [hashSeparator])
                                  + (L + 1) * i)
      by (rewrite length_app, length_list_byte_of_string, Hh; cbn [length]; lia).
    rewrite drop_app_add'; [|done]. apply IH.
Qed.

(** One run of the loop of [Read] from a reader that stands [l] bytes into
    the first of the names [rest].  [room] bytes of the buffer are free.
    When the buffer does not end exactly at the end of a name, and a name
    that was begun earlier can be finished in this call, the loop hands out
    the next [room] bytes of the stream and stops where the stream does. *)
Lemma nodeReader_loop_stream (L : nat) (rest : list string) :
  ∀ (lenb : nat) (b : list byte) (idx l : nat),
    Forall (λ h, String.length h = L) rest →
    length b ≤ lenb →
    l = 0 ∨ (l < L ∧ L - l < lenb - length b) →
    (∀ j, j < length rest → (L + 1) * j + L ≠ l + (lenb - length b)) →
    ∃ idx' l',
      nodeReader.loop rest lenb b idx (Z.of_nat l) =
        (b ++ take (lenb - length b) (drop l (nodeBytes (Node rest))),
         (if decide (length (drop l (nodeBytes (Node rest))) ≤ lenb - length b)
          then Some io_EOF else None),
         (idx', Z.of_nat l')) ∧
      (¬ length (drop l (nodeBytes (Node rest))) ≤ lenb - length b →
       (L + 1) * idx' + l' = (L + 1) * idx + l + (lenb - length b) ∧
       l' < L ∧ idx' < idx + length rest).
Proof.
  induction rest as [|hash rest IH]; intros lenb b idx l Hall Hb Hl Hends.
  - exists idx, l. cbn. rewrite drop_nil, take_nil, app_nil_r. cbn.
    split; [done|]. intros Hn. exfalso. apply Hn. lia.
  - apply Forall_cons in Hall as [Hh Hall].
    cbn [nodeReader.loop]. rewrite Nat2Z.id.
    set (room := lenb - length b) in *.
    assert (HlL : l ≤ L) by lia.
    assert (Hstream : drop l (nodeBytes (Node (hash :: rest))) =
              drop l (list_byte_of_string hash) ++ hashSeparator :: nodeBytes (Node rest)).
    { rewrite nodeBytes_cons.
      rewrite drop_app_le by (rewrite length_list_byte_of_string; lia). done. }
    assert (Hsrc : length (drop l (list_byte_of_string hash)) = L - l).
    { by rewrite length_drop, length_list_byte_of_string, Hh. }
    rewrite Hstream. set (src := drop l (list_byte_of_string hash)) in *.
    rewrite length_app, Hsrc, Hh. cbn [length].
    assert (Hlen : length (src ++ hashSeparator :: nodeBytes (Node rest)) =
                     (L - l) + S (length (nodeBytes (Node rest)))).
    { by rewrite length_app, Hsrc. }
    rewrite Hlen.
    destruct (decide (room < L - l)) as [Hshort|Hfull].
    + (* the name does not fit: it was not begun before *)
      assert (Hl0 : l = 0) by lia.
      rewrite Nat.min_l by lia. Zltb_true.
      exists idx, room. rewrite decide_False by lia. split.
      * rewrite (take_app_le _ _ room) by lia. done.
      * intros _. cbn [length]. lia.
    + rewrite Nat.min_r by lia. Zltb_false.
      rewrite (take_ge src) by lia. rewrite Hsrc.
      assert (Hnot : L - l ≠ room).
      { specialize (Hends 0). cbn [length] in Hends. lia. }
      rewrite decide_False by lia.
      destruct (IH lenb ((b ++ src) ++ [hashSeparator]) (S idx) 0 Hall)
        as (idx' & l' & Hloop & Hstate).
      * rewrite !length_app, Hsrc. cbn [length]. lia.
      * by left.
      * intros j Hj. specialize (Hends (S j)). cbn [length] in Hends.
        rewrite !length_app, Hsrc. cbn [length].
        replace ((L + 1) * S j) with ((L + 1) * j + (L + 1)) in Hends by lia.
        lia.
      * change (Z.of_nat 0) with 0%Z in Hloop. rewrite Hloop.
        rewrite drop_0 in Hstate |- *.
        rewrite !length_app, Hsrc in Hstate |- *. cbn [length] in Hstate |- *.
        replace (lenb - (length b + (L - l) + 1)) with (room - (L - l) - 1)
          in Hstate |- * by lia.
        exists idx', l'. split.
        -- f_equal. f_equal.
           ++ rewrite <- !app_assoc. f_equal.
              rewrite take_app_ge by lia. f_equal. rewrite Hsrc.
              destruct (room - (L - l)) as [|k] eqn:Hk; [lia|].
              cbn. by rewrite Nat.sub_0_r.
           ++ destruct (decide (length (nodeBytes (Node rest)) ≤ room - (L - l) - 1));
                [rewrite decide_True by lia|rewrite decide_False by lia]; done.
        -- intros Hn. destruct Hstate as (Hoff & Hl' & Hidx); [lia|].
           split_and!; lia.
Qed.

(** One [Read] from a reader that stands at offset [(L + 1) * idx + l] of
    the serialized node. *)
Lemma nodeReader_Read_stream (L : nat) (nd : node) (idx l lenb : nat) :
  Forall (λ h, String.length h = L) (hashes nd) →
  idx ≤ length (hashes nd) →
  l = 0 ∨ (l < L ∧ L - l < lenb) →
  (∀ j, j < length (hashes nd) → (L + 1) * j + L ≠ (L + 1) * idx + l + lenb) →
  ∃ idx' l',
    nodeReader.Read (nodeReader.mk nd idx (Z.of_nat l)) lenb =
      Some (take lenb (drop ((L + 1) * idx + l) (nodeBytes nd)),
            (if decide (length (drop ((L + 1) * idx + l) (nodeBytes nd)) ≤ lenb)
             then Some io_EOF else None),
            nodeReader.mk nd idx' (Z.of_nat l')) ∧
    (¬ length (drop ((L + 1) * idx + l) (nodeBytes nd)) ≤ lenb →
     (L + 1) * idx' + l' = (L + 1) * idx + l + lenb ∧
     l' < L ∧ idx' ≤ length (hashes nd)).
Proof.
  intros Hall Hidx Hl Hends. destruct nd as [hs]. cbn [hashes] in *.
  destruct (nodeReader_loop_stream L (drop idx hs) lenb [] idx l)
    as (idx' & l' & Hloop & Hstate).
  - by apply Forall_drop.
  - cbn [length]. lia.
  - cbn [length]. rewrite Nat.sub_0_r. exact Hl.
  - intros j Hj. rewrite length_drop in Hj. cbn [length]. rewrite Nat.sub_0_r.
    specialize (Hends (idx + j)).
    replace ((L + 1) * (idx + j)) with ((L + 1) * idx + (L + 1) * j) in Hends by lia.
    lia.
  - cbn [length] in Hloop, Hstate. rewrite Nat.sub_0_r in Hloop, Hstate.
    rewrite <- (nodeBytes_drop L hs idx Hall), drop_drop in Hloop, Hstate.
    exists idx', l'. split.
    + unfold nodeReader.Read.
      cbn [nodeReader.last nodeReader.idx nodeReader.node_ hashes].
      rewrite decide_False by lia. by rewrite Hloop.
    + intros Hn. destruct (Hstate Hn) as (Hoff & Hl' & Hidx').
      rewrite length_drop in Hidx'. split_and!; [done|done|lia].
Qed.

(** Successive reads through buffers in which every name is finished in the
    call after the one that began it, and none ends exactly where a buffer
    does: the calls hand out the rest of the stream and then EOF. *)
Lemma nodeReader_pull_stream (L : nat) (nd : node) (sizes : list nat) :
  ∀ (idx l : nat),
    Forall (λ h, String.length h = L) (hashes nd) →
    idx ≤ length (hashes nd) →
    l = 0 ∨ l < L →
    sizes ≠ [] →
    Forall (λ s, L ≤ s) sizes →
    (∀ k j, 0 < k ≤ length sizes → j < length (hashes nd) →
       (L + 1) * j + L ≠ (L + 1) * idx + l + sum_list (take k sizes)) →
    length (nodeBytes nd) ≤ (L + 1) * idx + l + sum_list sizes →
    nodeReader.pull (nodeReader.mk nd idx (Z.of_nat l)) sizes =
      Some (drop ((L + 1) * idx + l) (nodeBytes nd), Some io_EOF).
Proof.
  induction sizes as [|s sizes IH]; intros idx l Hall Hidx Hl Hne Hbig Hends Hsum;
    [done|].
  apply Forall_cons in Hbig as [Hs Hbig].
  destruct (nodeReader_Read_stream L nd idx l s Hall Hidx) as (idx' & l' & Hread & Hstate).
  - destruct (decide (l = 0)); [by left|right; lia].
  - intros j Hj. specialize (Hends 1 j).
    change (sum_list (take 1 (s :: sizes))) with (s + sum_list (take 0 sizes)) in Hends.
    rewrite take_0 in Hends. change (sum_list []) with 0 in Hends.
    rewrite Nat.add_0_r in Hends. apply Hends; [cbn [length]; lia|done].
  - cbn [nodeReader.pull]. rewrite Hread.
    set (p := (L + 1) * idx + l) in *.
    destruct (decide (length (drop p (nodeBytes nd)) ≤ s)) as [Hend|Hmore].
    + by rewrite take_ge.
    + destruct (Hstate Hmore) as (Hoff & Hl' & Hidx').
      rewrite length_drop in Hmore.
      change (sum_list (s :: sizes)) with (s + sum_list sizes) in Hsum.
      rewrite (IH idx' l'); try done.
      * rewrite Hoff, <- drop_drop, take_drop. done.
      * by right.
      * intros ->. change (sum_list []) with 0 in Hsum. lia.
      * intros k j Hk Hj. specialize (Hends (S k) j).
        change (sum_list (take (S k) (s :: sizes)))
          with (s + sum_list (take k sizes)) in Hends.
        rewrite Hoff. rewrite <- Nat.add_assoc. apply Hends; [cbn [length]; lia|done].
      * rewrite Hoff. lia.
Qed.

(** The copy loop of the store reads through buffers of even length; names
    of an odd length therefore never end where a buffer does, and the node
    comes out whole however long it is. *)
Lemma copy_from_nodeReader_stream (L : nat) (nd : node) :
  Nat.Odd L → L < copyBufSize →
  Forall (λ h, String.length h = L) (hashes nd) →
  ∀ (fuel idx l : nat) (acc : list byte),
    idx ≤ length (hashes nd) →
    l = 0 ∨ l < L →
    Nat.Even ((L + 1) * idx + l) →
    length (nodeBytes nd) - ((L + 1) * idx + l) < fuel →
    copy_from_nodeReader fuel (nodeReader.mk nd idx (Z.of_nat l)) acc =
      Ok (acc ++ drop ((L + 1) * idx + l) (nodeBytes nd)).
Proof.
  intros [a Ha] Hsmall Hall.
  assert (Heven : copyBufSize = 2 * Z.to_nat 16384) by (unfold copyBufSize; lia).
  induction fuel as [|fuel IH]; intros idx l acc Hidx Hl [q Hq] Hfuel; [lia|].
  destruct (nodeReader_Read_stream L nd idx l copyBufSize Hall Hidx)
    as (idx' & l' & Hread & Hstate).
  - destruct (decide (l = 0)); [by left|right; lia].
  - intros j _ Hj. rewrite Hq, Heven in Hj.
    assert ((L + 1) * j = 2 * ((a + 1) * j)) by (rewrite Ha; lia). lia.
  - cbn [copy_from_nodeReader]. rewrite Hread.
    set (p := (L + 1) * idx + l) in *.
    destruct (decide (length (drop p (nodeBytes nd)) ≤ copyBufSize)) as [Hend|Hmore].
    + by rewrite take_ge.
    + destruct (Hstate Hmore) as (Hoff & Hl' & Hidx').
      rewrite length_drop in Hmore.
      rewrite (IH idx' l' (acc ++ take copyBufSize (drop p (nodeBytes nd))) Hidx'
                 (or_intror Hl')).
      * rewrite Hoff, <- app_assoc, <- drop_drop, take_drop. reflexivity.
      * exists (q + Z.to_nat 16384). lia.
      * lia.
Qed.

Section Serializer_whole.
Context `{HashEncoder}.

Lemma validHash_length (hs : list string) :
  Forall validHash hs → Forall (λ h, String.length h = encodedHashLen) hs.
Proof. intros Hv. eapply Forall_impl; [exact Hv|]. by intros h [? _]. Qed.

Lemma copy_from_nodeReader_whole (nd : node) :
  Nat.Odd encodedHashLen → encodedHashLen < copyBufSize →
  Forall validHash (hashes nd) →
  copy_from_nodeReader (S (length (nodeBytes nd))) (nodeReader.new nd) [] =
    Ok (nodeBytes nd).
Proof.
  intros Hodd Hsmall Hvalid.
  rewrite (copy_from_nodeReader_stream encodedHashLen nd Hodd Hsmall
             (validHash_length _ Hvalid) _ 0 0 []).
  - by rewrite Nat.mul_0_r, drop_0.
  - lia.
  - by left.
  - exists 0. lia.
  - lia.
Qed.

End Serializer_whole.

Section Write_result.
Context `{HashEncoder}.

Lemma writeBlock_Ok_present (st : BlockStorage) (hash : string)
    (value : list byte) (w w' : World) :
  blockDir w !! hash = None →
  writeBlock st hash value w = (Ok tt, w') →
  is_Some (blockDir w' !! hash).
Proof.
  intros Hfresh. unfold writeBlock, blockPathForKey, open.
  cbn [file_at sys blockDir defaultFileRWFlags O_CREAT O_EXCL O_TRUNC].
  rewrite Hfresh.
  destruct (Writer (compression st) value) as [stored|e]; simpl; [|done].
  unfold file_Write. cbn [file_at put_file blockDir]. rewrite lookup_insert_eq.
  cbn. intros [= <-]. cbn. by rewrite lookup_insert_eq.
Qed.

(** Every name the chunk loop appends to the node is a well-formed hash
    and has a block file when the loop returns. *)
Lemma chunkLoop_present (fuel : nat) :
  ∀ (st : BlockStorage) (r : list byte) (nd nd' : node) (w w' : World),
    chunkLoop fuel st r nd w = (Ok nd', w') →
    ∃ new, hashes nd' = hashes nd ++ new ∧ Forall validHash new ∧
           ∀ h, h ∈ new → is_Some (blockDir w' !! h).
Proof.
  induction fuel as [|fuel IH]; intros st r nd nd' w w'; [done|].
  cbn [chunkLoop]. unfold bind at 1.
  pose proof (bufpool_Get_same_files w) as (_ & Hb1 & _).
  destruct (bufpool_Get w) as [[buf|e] w1]; simpl in Hb1; [|done].
  destruct (io_ReadFull r (B (Buffer_Grow buf (Z.to_nat (BlockSize (config st))))))
    as [[[n err] bufB] r'].
  set (sum := EncodeSum bufB).
  assert (Hbody :
    (let* has := statBlock sum in
      if has then chunkLoop fuel st r' (Node (hashes nd ++ [sum]))
      else let* _ := writeBlock st sum (take n bufB) in
           if n <? length bufB then ret (Node (hashes nd ++ [sum]))
           else chunkLoop fuel st r' (Node (hashes nd ++ [sum]))) w1 = (Ok nd', w') →
    ∃ new, hashes nd' = hashes nd ++ new ∧ Forall validHash new ∧
           ∀ h, h ∈ new → is_Some (blockDir w' !! h)).
  { assert (Hrec : ∀ w2, is_Some (blockDir w2 !! sum) →
      chunkLoop fuel st r' (Node (hashes nd ++ [sum])) w2 = (Ok nd', w') →
      ∃ new, hashes nd' = hashes nd ++ new ∧ Forall validHash new ∧
             ∀ h, h ∈ new → is_Some (blockDir w' !! h)).
    { intros w2 [data Hsum] Hloop.
      pose proof (chunkLoop_blocks_grow fuel st r' (Node (hashes nd ++ [sum])) w2)
        as (_ & Hsub & _).
      rewrite Hloop in Hsub. cbn [snd] in Hsub.
      apply IH in Hloop as (new & Hnew & Hvalid & Hpresent). cbn [hashes] in Hnew.
      exists (sum :: new). split_and!.
      - by rewrite Hnew, <- app_assoc.
      - constructor; [apply validHash_EncodeSum|done].
      - intros h [->|Hin]%elem_of_cons; [|by apply Hpresent].
        exists data. by eapply lookup_weaken. }
    unfold bind at 1. unfold statBlock, stat, blockPathForKey. cbn [exists_at].
    set (w2 := sys _ w1).
    destruct (blockDir w1 !! sum) as [data|] eqn:Hsum;
      change (blockDir w1) with (blockDir w2) in Hsum.
    - rewrite bool_decide_eq_true_2 by done. apply Hrec. by exists data.
    - rewrite bool_decide_eq_false_2 by (by intros [? ?]).
      unfold bind.
      destruct (writeBlock st sum (take n bufB) w2) as [[[]|e] w3] eqn:Hwrite;
        [|done].
      apply writeBlock_Ok_present in Hwrite; [|done].
      destruct (n <? length bufB).
      + intros [= <- <-]. exists [sum]. split_and!; [done| |].
        * constructor; [apply validHash_EncodeSum|done].
        * by intros h ->%list_elem_of_singleton.
      + by apply Hrec. }
  destruct err as [e|]; [|exact Hbody].
  destruct e; try done.
  unfold ret. intros [= <- <-]. exists []. rewrite app_nil_r. split_and!; [done|done|].
  by intros h ?%elem_of_nil.
Qed.

(** Names of an odd length below the copy buffer's, as the 43 characters of
    the store's encoder are: a write that succeeds leaves the key
    consistent.  Its node file is, whatever its size, the serialization of
    the node the chunk loop built; that node parses back from the file, is
    not empty, lists well-formed hashes only, and each of them has a block
    file. *)
Theorem WriteStream_success_consistent (st : BlockStorage) (key : string)
    (r : list byte) (w w' : World) :
  Nat.Odd encodedHashLen → encodedHashLen < copyBufSize →
  WriteStream st key r w = (Ok tt, w') →
  ∃ nd,
    nodeDir w' !! key = Some (nodeBytes nd) ∧
    nodeOf (nodeBytes nd) = Some nd ∧
    hashes nd ≠ [] ∧
    Forall validHash (hashes nd) ∧
    (∀ h, h ∈ hashes nd → is_Some (blockDir w' !! h)).
Proof.
  intros Hodd Hsmall.
  unfold WriteStream, bind, lift, lock_Closed.
  destruct (nodePathForKey key) as [p|e] eqn:Hkey; [|done].
  apply nodePathForKey_Ok in Hkey as ->.
  destruct (lockClosed w) eqn:Hopen; [done|].
  unfold stat. cbn [fst snd].
  destruct (exists_at (RelPath key) w && negb (Overwrite (config st))); [done|].
  unfold os_MkdirAll.
  set (w3 := sys (SysMkdirAll BlockDir) _).
  destruct (chunkLoop (S (length r)) st r (Node []) w3) as [[nd|e] w4] eqn:Hloop;
    [|done].
  apply chunkLoop_present in Hloop as (new & Hnew & Hvalid & Hpresent).
  cbn [hashes app] in Hnew. rewrite <- Hnew in Hvalid, Hpresent. clear new Hnew.
  case_decide as Hlen; [done|].
  assert (Hne : hashes nd ≠ []).
  { intros Hnil. rewrite Hnil in Hlen. cbn in Hlen. lia. }
  rewrite (copy_from_nodeReader_whole nd Hodd Hsmall Hvalid).
  assert (Hfinish : ∀ w5,
    blockDir w5 = blockDir w4 → nodeDir w5 !! key = Some [] →
    match bufpool_Get w5 with
    | (Ok _, w6) => file_Write (NodePath key) (nodeBytes nd) w6
    | (Err e, w6) => (Err e, w6)
    end = (Ok tt, w') →
    ∃ nd0,
      nodeDir w' !! key = Some (nodeBytes nd0) ∧
      nodeOf (nodeBytes nd0) = Some nd0 ∧
      hashes nd0 ≠ [] ∧ Forall validHash (hashes nd0) ∧
      (∀ h, h ∈ hashes nd0 → is_Some (blockDir w' !! h))).
  { intros w5 Hb5 Hfile.
    pose proof (bufpool_Get_same_files w5) as (Hn6 & Hb6 & _).
    destruct (bufpool_Get w5) as [[buf|e] w6]; cbn [snd] in *; [|done].
    unfold file_Write. cbn [file_at]. rewrite Hn6, Hfile. cbn.
    intros [= <-]. exists nd. cbn. rewrite lookup_insert_eq.
    split_and!; try done.
    - by rewrite drop_nil, app_nil_r.
    - unfold nodeOf. by rewrite parseNode_nodeBytes.
    - intros h Hin. rewrite Hb6, Hb5. by apply Hpresent. }
  unfold map_err, open. cbn [file_at sys nodeDir].
  destruct (nodeDir w4 !! key) as [old|] eqn:Hold.
  - destruct (Overwrite (config st)); cbn; [|done].
    refine (Hfinish _ _ _); cbn; [done|by rewrite lookup_insert_eq].
  - assert (Hcreate : O_CREAT (if Overwrite (config st) then defaultFileRWFlags
                               else with_O_EXCL defaultFileRWFlags) = true).
    { by destruct (Overwrite (config st)). }
    rewrite Hcreate. cbn [fst snd].
    refine (Hfinish _ _ _); cbn; [done|by rewrite lookup_insert_eq].
Qed.

End Write_result.
(** ** One short chunk, written and read back *)

Section Short_roundtrip.
Context `{HashEncoder}.

(** Overwriting off, no file named like the key in the working directory, a
    fresh key, and no block file yet under the name the chunk gets: a
    non-empty value shorter than a block, written there and read back
    through one Read with a buffer longer than the value, comes back whole
    and with EOF, provided decompression undoes compression. *)
Theorem roundtrip_large_buffer (st : BlockStorage) (key : string)
    (r stored : list byte) (lenb : nat) (w : World) :
  let bs := Z.to_nat (BlockSize (config st)) in
  let sum := EncodeSum (r ++ drop (length r) (nextBuffer w bs)) in
  nodePathForKey key = Ok (NodePath key) →
  lockClosed w = false →
  key ∉ cwd w →
  Overwrite (config st) = false →
  nodeDir w !! key = None →
  0 < length r < bs →
  blockDir w !! sum = None →
  Writer (compression st) r = Ok stored →
  Reader (compression st) stored = Ok r →
  encodedHashLen < copyBufSize →
  length r < lenb →
  ∃ w1 rd w2 rd' w3,
    WriteStream st key r w = (Ok tt, w1) ∧
    ReadStream st key w1 = (Ok rd, w2) ∧
    blockReader.Read st rd lenb w2 = ((r, Some io_EOF, rd'), w3).
Proof.
  intros bs sum Hkey Hopen Hcwd Hover Hnone Hlen Hfree Hwr Hrd Hsmall Hroom.
  destruct (WriteStream_short_value st key r stored w Hkey Hopen Hcwd Hover
              Hnone Hlen Hfree Hwr Hsmall)
    as (w1 & Hwrite & Hn1 & Hb1 & _ & Hl1).
  fold bs sum in Hn1, Hb1.
  destruct (ReadStream_wellformed st key (Node [sum]) w1 Hkey Hl1)
    as (w2 & Hread & (_ & Hb2 & _)).
  { by rewrite Hn1, lookup_insert_eq. }
  { constructor; [apply validHash_EncodeSum|done]. }
  destruct (blockReader_loop_whole st [sum] [r] lenb [] [] 0 w2)
    as (rd' & w3 & Hloop & _).
  { constructor; [|done]. unfold blockValue.
    by rewrite Hb2, Hb1, lookup_insert_eq, Hrd. }
  { cbn. rewrite app_nil_r. lia. }
  exists w1, (blockReader.mk (Node [sum]) [] 0), w2, rd', w3.
  split; [done|]. split; [done|].
  unfold blockReader.Read. cbn [blockReader.prev blockReader.buf length
    blockReader.node_ hashes].
  replace (Z.of_nat 0 <? Z.of_nat 0 - 1)%Z with false by done.
  rewrite Hloop. cbn. by rewrite app_nil_r.
Qed.

(** With overwriting off, a non-empty write to a key that is there is
    refused with ErrAlreadyExists only when the node file is opened: by
    then the chunk has been stored, and its block file stays behind while
    the node file is as before. *)
Theorem refused_overwrite_leaves_block (st : BlockStorage) (key : string)
    (file r stored : list byte) (w : World) :
  let bs := Z.to_nat (BlockSize (config st)) in
  let sum := EncodeSum (r ++ drop (length r) (nextBuffer w bs)) in
  nodePathForKey key = Ok (NodePath key) →
  lockClosed w = false →
  key ∉ cwd w →
  Overwrite (config st) = false →
  nodeDir w !! key = Some file →
  0 < length r < bs →
  blockDir w !! sum = None →
  Writer (compression st) r = Ok stored →
  ∃ w',
    WriteStream st key r w = (Err ErrAlreadyExists, w') ∧
    nodeDir w' = nodeDir w ∧
    blockDir w' = <[sum := stored]> (blockDir w).
Proof.
  intros bs sum Hkey Hopen Hcwd Hover Hfile Hlen Hfree Hwr.
  set (w3 := sys (SysMkdirAll BlockDir)
               (sys (SysMkdirAll NodeDir) (sys (SysStat (RelPath key)) w))).
  destruct (chunkLoop_short_chunk (length r) st r stored w3)
    as (w4 & Hloop & Hb4 & Hn4 & Hc4 & Hl4); [done|done|done|].
  change (nextBuffer w3 _) with (nextBuffer w bs) in Hloop, Hb4.
  fold sum in Hloop, Hb4. simpl in Hb4, Hn4, Hc4, Hl4.
  unfold WriteStream, bind, lift, lock_Closed. rewrite Hkey, Hopen.
  unfold stat, os_MkdirAll.
  change (exists_at (RelPath key) w) with (bool_decide (key ∈ cwd w)).
  rewrite bool_decide_eq_false_2 by done. cbn [andb]. fold w3. rewrite Hloop.
  cbn [hashes length]. rewrite decide_False by lia. rewrite Hover.
  unfold map_err, open. cbn [file_at sys nodeDir]. rewrite Hn4, Hfile.
  cbn. eexists. split; [reflexivity|]. cbn. by rewrite Hn4, Hb4.
Qed.

End Short_roundtrip.
(** ** The properties above on sample stores *)

Lemma validHash_hashA : validHash hashA.
Proof.
  split; [reflexivity|]. apply (bool_decide_unpack _). vm_compute. exact I.
Qed.

Lemma validHash_hashB : validHash hashB.
Proof.
  split; [reflexivity|]. apply (bool_decide_unpack _). vm_compute. exact I.
Qed.

Lemma Clean_reports_exactly_witness :
  ∃ nodeKeys,
    (Clean (OpenBlock None) sampleWorld).1 = Err (ErrCorruptedNodes nodeKeys) ∧
    NoDup nodeKeys ∧
    ∀ key, key ∈ nodeKeys ↔ unsatisfied sampleWorld key.
Proof.
  apply (proj2 (Clean_reports_exactly (OpenBlock None) sampleWorld eq_refl
                  sampleWorld_parses)).
  exists "a", (nodeBytes (Node [hashA; hashA; hashB])), (Node [hashA; hashA; hashB]).
  split; [reflexivity|]. split; [vm_compute; reflexivity|].
  right. exists hashB. split; [|reflexivity].
  do 2 apply list_elem_of_further. apply list_elem_of_here.
Defined.

Lemma Clean_aborts_on_invalid_node_witness :
  let w := mkWorld {[ "a" := abc ++ [hashSeparator] ]} {[ hashC := abc ]} ∅ false [] [] in
  (Clean (OpenBlock None) w).1 = Err errInvalidNode ∧
  blockDir (Clean (OpenBlock None) w).2 = blockDir w ∧
  nodeDir (Clean (OpenBlock None) w).2 = nodeDir w.
Proof.
  intros w.
  apply (Clean_aborts_on_invalid_node (OpenBlock None) w "a" (abc ++ [hashSeparator])).
  - reflexivity.
  - reflexivity.
  - vm_compute. reflexivity.
Defined.

Lemma parseNode_sound_witness :
  Forall validHash [hashA; hashB] ∧
  ∃ tail, nodeBytes (Node [hashA; hashB]) ++ abc =
            nodeBytes (Node [hashA; hashB]) ++ tail ∧
          hashSeparator ∉ tail.
Proof.
  apply (parseNode_sound (nodeBytes (Node [hashA; hashB]) ++ abc) (Node [hashA; hashB])).
  vm_compute. reflexivity.
Defined.

Lemma parseNode_bad_segment_witness :
  parseNode (nodeBytes (Node [hashA]) ++ abc ++ [hashSeparator]) = Err errInvalidNode.
Proof.
  apply (parseNode_bad_segment [hashA] abc []).
  - constructor; [exact validHash_hashA|constructor].
  - apply (bool_decide_unpack _). vm_compute. exact I.
  - vm_compute. discriminate.
Defined.

Lemma nodeWriter_any_split_witness :
  nodeWriter_feed nodeWriter.new
    [take 10 (nodeBytes (Node [hashA; hashB]));
     drop 10 (nodeBytes (Node [hashA; hashB])) ++ abc] =
    Ok (nodeWriter.mk (Node [hashA; hashB]) abc).
Proof.
  apply (nodeWriter_any_split _ (Node [hashA; hashB]) abc).
  - constructor; [exact validHash_hashA|].
    constructor; [exact validHash_hashB|constructor].
  - apply (bool_decide_unpack _). vm_compute. exact I.
  - vm_compute. lia.
  - vm_compute. reflexivity.
Defined.

Lemma parseNode_ignores_tail_witness :
  parseNode (nodeBytes (Node [hashA]) ++ abc) = Ok (Node [hashA]).
Proof.
  apply (parseNode_ignores_tail (Node [hashA]) abc).
  - constructor; [exact validHash_hashA|constructor].
  - apply (bool_decide_unpack _). vm_compute. exact I.
  - vm_compute. lia.
Defined.

Lemma nodeReader_one_shot_witness :
  nodeReader.Read (nodeReader.new (Node [hashA; hashB])) 100 =
    Some (nodeBytes (Node [hashA; hashB]), Some io_EOF,
          nodeReader.mk (Node [hashA; hashB]) 2 0).
Proof.
  apply (nodeReader_one_shot (Node [hashA; hashB]) 100). simpl. lia.
Defined.

Lemma node_codec_roundtrip_witness :
  ∃ file,
    copy_from_nodeReader (S (length (nodeBytes (Node [hashA; hashB]))))
      (nodeReader.new (Node [hashA; hashB])) [] = Ok file ∧
    parseNode file = Ok (Node [hashA; hashB]).
Proof.
  apply (node_codec_roundtrip (Node [hashA; hashB])).
  - constructor; [exact validHash_hashA|].
    constructor; [exact validHash_hashB|constructor].
  - unfold copyBufSize. simpl. lia.
Defined.

Lemma WriteStream_failure_keeps_nodes_witness :
  nodeDir (WriteStream (OpenBlock None) "d" [] twiceWorld).2 = nodeDir twiceWorld.
Proof.
  apply (WriteStream_failure_keeps_nodes (OpenBlock None) "d" [] twiceWorld
           errNoHashesWritten).
  - vm_compute. reflexivity.
  - discriminate.
  - discriminate.
Defined.

Lemma closed_store_refuses_witness :
  let w := mkWorld ∅ ∅ ∅ true [] [] in
  ReadStream (OpenBlock None) "k" w = (Err ErrClosed, w) ∧
  WriteStream (OpenBlock None) "k" abc w = (Err ErrClosed, w) ∧
  Stat (OpenBlock None) "k" w = (Err ErrClosed, w) ∧
  Remove (OpenBlock None) "k" w = (Err ErrClosed, w) ∧
  Clean (OpenBlock None) w = (Err ErrClosed, w) ∧
  ∀ (T : Type) (WalkFn : string → T → T) (s : T),
    WalkKeys (OpenBlock None) WalkFn s w = (Err ErrClosed, w).
Proof.
  intros w. apply (closed_store_refuses (OpenBlock None) "k" abc w); reflexivity.
Defined.

Lemma Remove_existing_witness :
  ∃ w',
    Remove (OpenBlock None) "a" sampleWorld = (Ok tt, w') ∧
    nodeDir w' = delete "a" (nodeDir sampleWorld) ∧
    blockDir w' = blockDir sampleWorld ∧
    (Stat (OpenBlock None) "a" w').1 = Ok false ∧
    (ReadStream (OpenBlock None) "a" w').1 = Err ErrNotFound ∧
    (Remove (OpenBlock None) "a" w').1 = Err ErrNotFound.
Proof.
  apply (Remove_existing (OpenBlock None) "a"
           (nodeBytes (Node [hashA; hashA; hashB])) sampleWorld); reflexivity.
Defined.

Lemma Remove_then_Clean_witness :
  ∃ w1 res w2,
    Remove (OpenBlock None) "a" sampleWorld = (Ok tt, w1) ∧
    Clean (OpenBlock None) w1 = (res, w2) ∧
    (∀ name, listed_elsewhere sampleWorld "a" name →
             blockDir w2 !! name = blockDir sampleWorld !! name) ∧
    (∀ name, ¬ listed_elsewhere sampleWorld "a" name → blockDir w2 !! name = None).
Proof.
  apply (Remove_then_Clean (OpenBlock None) "a"
           (nodeBytes (Node [hashA; hashA; hashB])) sampleWorld).
  - reflexivity.
  - reflexivity.
  - exact sampleWorld_parses.
  - reflexivity.
Defined.

Lemma ReadStream_missing_block_witness :
  let w := mkWorld {[ "a" := nodeBytes (Node [hashB]) ]} {[ hashA := abc ]} ∅ false [] [] in
  ∃ r w',
    ReadStream (OpenBlock None) "a" w = (Ok r, w') ∧
    ∀ lenb, ∃ r',
      (blockReader.Read (OpenBlock None) r lenb w').1 =
        ([], Some (wrap errCorruptNode (Errno ENOENT)), r').
Proof.
  intros w.
  apply (ReadStream_missing_block (OpenBlock None) "a" (nodeBytes (Node [hashB]))
           (Node [hashB]) hashB [] w).
  - reflexivity.
  - reflexivity.
  - reflexivity.
  - vm_compute. reflexivity.
  - reflexivity.
  - reflexivity.
Defined.

Lemma blockReader_Read_whole_witness :
  ∃ r' w',
    blockReader.Read (OpenBlock None) (blockReader.mk (Node [hashA; hashA]) [] 0) 7
      twiceWorld = ((abc ++ abc, Some io_EOF, r'), w').
Proof.
  apply (blockReader_Read_whole (OpenBlock None) (Node [hashA; hashA]) [abc; abc] 7
           twiceWorld).
  - constructor; [reflexivity|]. constructor; [reflexivity|constructor].
  - simpl. lia.
Defined.

Lemma getBlockConfig_normal_witness :
  BlockSize (getBlockConfig (Some DefaultBlockConfig)) = BlockSize DefaultBlockConfig.
Proof.
  destruct (getBlockConfig_normal (Some DefaultBlockConfig)) as (_ & _ & _ & _ & Hkeep).
  destruct (Hkeep DefaultBlockConfig eq_refl) as (Hsize & _).
  apply Hsize. simpl. lia.
Defined.

Lemma removeHash_filters_witness :
  (removeHash (Node [hashA; hashB]) hashC).1 = Node [hashA; hashB].
Proof.
  destruct (removeHash_filters (Node [hashA; hashB]) hashC) as (_ & _ & Hsame).
  apply Hsame. apply (bool_decide_unpack _). vm_compute. exact I.
Defined.


Lemma demo_short_write :
  ∃ w', WriteStream (OpenBlock None) "k" abc emptyWorld = (Ok tt, w').
Proof.
  destruct (WriteStream_short_value (OpenBlock None) "k" abc abc emptyWorld)
    as (w' & Hwrite & _); try reflexivity.
  - apply not_elem_of_empty.
  - simpl. lia.
  - unfold copyBufSize. simpl. lia.
  - exists w'. exact Hwrite.
Defined.

Lemma WriteStream_success_consistent_witness :
  ∃ w' nd,
    WriteStream (OpenBlock None) "k" abc emptyWorld = (Ok tt, w') ∧
    nodeDir w' !! "k" = Some (nodeBytes nd) ∧
    nodeOf (nodeBytes nd) = Some nd ∧
    hashes nd ≠ [] ∧
    Forall validHash (hashes nd) ∧
    (∀ h, h ∈ hashes nd → is_Some (blockDir w' !! h)).
Proof.
  destruct demo_short_write as (w' & Hwrite).
  destruct (WriteStream_success_consistent (OpenBlock None) "k" abc emptyWorld w')
    as (nd & Hres).
  - exists 21. reflexivity.
  - unfold copyBufSize. simpl. lia.
  - exact Hwrite.
  - exists w', nd. split; [exact Hwrite|exact Hres].
Defined.

Lemma roundtrip_large_buffer_witness :
  ∃ w1 rd w2 rd' w3,
    WriteStream (OpenBlock None) "k" abc emptyWorld = (Ok tt, w1) ∧
    ReadStream (OpenBlock None) "k" w1 = (Ok rd, w2) ∧
    blockReader.Read (OpenBlock None) rd 4 w2 = ((abc, Some io_EOF, rd'), w3).
Proof.
  apply (roundtrip_large_buffer (OpenBlock None) "k" abc abc 4 emptyWorld);
    try reflexivity.
  - apply not_elem_of_empty.
  - simpl. lia.
  - unfold copyBufSize. simpl. lia.
  - simpl. lia.
Defined.

Lemma refused_overwrite_leaves_block_witness :
  let bs := Z.to_nat (BlockSize (config (OpenBlock None))) in
  let sum := EncodeSum (abc ++ drop (length abc) (nextBuffer twiceWorld bs)) in
  ∃ w',
    WriteStream (OpenBlock None) "d" abc twiceWorld = (Err ErrAlreadyExists, w') ∧
    nodeDir w' = nodeDir twiceWorld ∧
    blockDir w' = <[sum := abc]> (blockDir twiceWorld).
Proof.
  apply (refused_overwrite_leaves_block (OpenBlock None) "d"
           (nodeBytes (Node [hashA; hashA])) abc abc twiceWorld).
  - reflexivity.
  - reflexivity.
  - apply not_elem_of_empty.
  - reflexivity.
  - reflexivity.
  - simpl. lia.
  - vm_compute. reflexivity.
  - reflexivity.
Defined.

(** ** The codec through buffers that fit, and the empty write *)

Section Codec_claims.
Context `{HashEncoder}.


(** C7, where the code departs from it.  The existence check of WriteStream
    looks for the bare key in the working directory.  On an open store an
    empty write to an accepted key fails with errNoHashesWritten, unless
    overwriting is off and a file named like the key lies in the working
    directory: then the write is refused with ErrAlreadyExists, whether or
    not the key has a node file.  Either way both directories are as before,
    and a key without a node file still has none and cannot be read. *)
Theorem empty_write_stray_file (cfg : option BlockConfig) (key : string)
    (w : World) :
  nodePathForKey key = Ok (NodePath key) →
  lockClosed w = false →
  ∃ w',
    WriteStream (OpenBlock cfg) key [] w =
      (Err (if bool_decide (key ∈ cwd w) && negb (Overwrite (config (OpenBlock cfg)))
            then ErrAlreadyExists else errNoHashesWritten), w') ∧
    ErrAlreadyExists ≠ errNoHashesWritten ∧
    nodeDir w' = nodeDir w ∧ blockDir w' = blockDir w ∧
    (nodeDir w !! key = None →
       nodeDir w' !! key = None ∧
       (ReadStream (OpenBlock cfg) key w').1 = Err ErrNotFound).
Proof.
  intros Hkey Hopen.
  destruct (bool_decide (key ∈ cwd w) && negb (Overwrite (config (OpenBlock cfg))))
    eqn:Hgate.
  - exists (sys (SysStat (RelPath key)) w). split_and!; try done.
    + unfold WriteStream, bind, lift, lock_Closed. rewrite Hkey, Hopen.
      unfold stat. cbn [fst snd].
      change (exists_at (RelPath key) w) with (bool_decide (key ∈ cwd w)).
      by rewrite Hgate.
    + intros Hnone. split; [done|]. by apply absent_key_results.
  - destruct (WriteStream_empty_input cfg key w Hkey Hopen)
      as (w' & Hwrite & Hn & Hb & Hc & Hl).
    { apply andb_false_iff in Hgate as [Hcwd|Hover].
      - left. by apply bool_decide_eq_false in Hcwd.
      - right. by apply negb_false_iff. }
    exists w'. split_and!; try done.
    intros Hnone. rewrite Hn. split; [done|].
    apply absent_key_results; congruence.
Qed.

End Codec_claims.



Lemma empty_write_stray_file_witness :
  let w := mkWorld ∅ ∅ {[ "k" ]} false [] [] in
  ∃ w',
    WriteStream (OpenBlock None) "k" [] w = (Err ErrAlreadyExists, w') ∧
    ErrAlreadyExists ≠ errNoHashesWritten ∧
    nodeDir w' = nodeDir w ∧ blockDir w' = blockDir w ∧
    (nodeDir w !! "k" = None →
       nodeDir w' !! "k" = None ∧
       (ReadStream (OpenBlock None) "k" w').1 = Err ErrNotFound).
Proof.
  intros w. exact (empty_write_stray_file None "k" w eq_refl eq_refl).
Defined.
